(** * poly_exp.hpp: maximum subarray (exhaustive and decrease-by-half) and
      exhaustive subset sum

    A shallow embedding of namespace [subarray] of [poly_exp.hpp].

    Conventions of the model.
    - A [std::vector<int>] is a [list Z]; a [const_iterator] into the input
      is its offset from [input.begin()], a [Z].
    - [int] arithmetic on elements and indices is arithmetic in [Z]: signed
      overflow is undefined in C++ and sums are assumed to stay in range.
      The one place where the width of [int] decides the behaviour of an
      in-contract call, the shift computing [largestInt] in
      [subset_sum_exh], has its widths written out.
    - A call either returns, stops at a failed [assert], reads outside the
      vector (undefined in C++), or, for the recursive function, exhausts
      the fuel of the model: type [outcome]. *)

From Stdlib Require Import ZArith List Lia Bool.
Import ListNotations.
Open Scope Z_scope.

(** ** Outcomes of a call *)

Inductive outcome (A : Type) : Type :=
| Ret (a : A)      (* the call returns [a] *)
| Abort            (* an [assert] failed *)
| Undefined        (* an element outside the vector was read *)
| Timeout.         (* the model ran out of fuel *)

Arguments Ret {A} a.
Arguments Abort {A}.
Arguments Undefined {A}.
Arguments Timeout {A}.

Definition bind {A B : Type} (m : outcome A) (k : A -> outcome B) : outcome B :=
  match m with
  | Ret a => k a
  | Abort => Abort
  | Undefined => Undefined
  | Timeout => Timeout
  end.

Notation "x <- m ;; k" := (bind m (fun x => k))
  (at level 61, m at next level, right associativity).

Module subarray.

(** ** Vectors *)

Definition vec := list Z.

(** [input.size()] *)
Definition size (input : vec) : Z := Z.of_nat (length input).

(** [input[k]]; reading outside [0, size) is undefined. *)
Definition at_ (input : vec) (k : Z) : outcome Z :=
  if (0 <=? k) && (k <? size input)
  then Ret (nth (Z.to_nat k) input 0)
  else Undefined.

(** The loop [for (; cnt > 0; k++) acc += input[k]], shared by
    [std::accumulate] and by the summing loops of [max_subarray_exh]. *)
Fixpoint sum_loop (input : vec) (k : Z) (cnt : nat) (acc : Z) : outcome Z :=
  match cnt with
  | O => Ret acc
  | S c => x <- at_ input k ;; sum_loop input (k + 1) c (acc + x)
  end.

(** [std::accumulate(first, last, 0)] over iterators of [input].  With
    [last] before [first] the walk never meets [last] and leaves the
    vector. *)
Definition accumulate (input : vec) (first last : Z) : outcome Z :=
  if first <=? last
  then sum_loop input first (Z.to_nat (last - first)) 0
  else Undefined.

(** ** summed_span *)

Record summed_span : Type := mk_summed_span
  { begin_ : Z; end_ : Z; sum_ : Z }.

(** [summed_span(begin, end, sum)] with its [assert(begin < end)]. *)
Definition summed_span3 (b e s : Z) : outcome summed_span :=
  if b <? e then Ret (mk_summed_span b e s) else Abort.

(** [summed_span(begin, end)]: delegates, the sum is accumulated first. *)
Definition summed_span2 (input : vec) (b e : Z) : outcome summed_span :=
  s <- accumulate input b e ;; summed_span3 b e s.

(** [operator==] *)
Definition span_eqb (lhs rhs : summed_span) : bool :=
  (begin_ lhs =? begin_ rhs) && (end_ lhs =? end_ rhs).

(** [size()] of a span *)
Definition span_size (s : summed_span) : Z := end_ s - begin_ s.

(** ** max_subarray_exh *)

(** [for (int k = i; k < j; k++) s += input[k]] from [s = 0]. *)
Definition sum_from_to (input : vec) (i j : Z) : outcome Z :=
  sum_loop input i (Z.to_nat (j - i)) 0.

(** The loop over [j], [cnt] iterations left; [be] is the pair [(b, e)]. *)
Fixpoint exh_inner (input : vec) (i j : Z) (cnt : nat) (be : Z * Z)
  : outcome (Z * Z) :=
  match cnt with
  | O => Ret be
  | S c =>
      sumItoJ <- sum_from_to input i j ;;
      sumBtoE <- sum_from_to input (fst be) (snd be) ;;
      exh_inner input i (j + 1) c (if sumItoJ >? sumBtoE then (i, j) else be)
  end.

(** The loop over [i]; the loop over [j] runs from [i + 1] while [j <= n]. *)
Fixpoint exh_outer (input : vec) (n i : Z) (cnt : nat) (be : Z * Z)
  : outcome (Z * Z) :=
  match cnt with
  | O => Ret be
  | S c =>
      be' <- exh_inner input i (i + 1) (Z.to_nat (n - i)) be ;;
      exh_outer input n (i + 1) c be'
  end.

Definition max_subarray_exh (input : vec) : outcome summed_span :=
  match input with
  | [] => Abort
  | _ =>
      let n := size input in
      be <- exh_outer input n 0 (Z.to_nat n) (0, 1) ;;
      if snd be =? size input
      then summed_span2 input (fst be) (size input)
      else summed_span2 input (fst be) (snd be)
  end.

(** ** max_subarray_dbh *)

Definition sentinel : Z := -99999999.

(** The leftward scan [for (int i = middle; i >= low; i--)]; state
    [(trueSum, sumL, b)], the result is [(sumL, b)]. *)
Fixpoint scan_left (input : vec) (i : Z) (cnt : nat) (trueSum sumL b : Z)
  : outcome (Z * Z) :=
  match cnt with
  | O => Ret (sumL, b)
  | S c =>
      x <- at_ input i ;;
      let trueSum := trueSum + x in
      if trueSum >? sumL
      then scan_left input (i - 1) c trueSum trueSum i
      else scan_left input (i - 1) c trueSum sumL b
  end.

(** The rightward scan [for (int j = middle + 1; j <= high; j++)]. *)
Fixpoint scan_right (input : vec) (j : Z) (cnt : nat) (trueSum sumR e : Z)
  : outcome (Z * Z) :=
  match cnt with
  | O => Ret (sumR, e)
  | S c =>
      x <- at_ input j ;;
      let trueSum := trueSum + x in
      if trueSum >? sumR
      then scan_right input (j + 1) c trueSum trueSum j
      else scan_right input (j + 1) c trueSum sumR e
  end.

Definition crossing_max_subarray (input : vec) (low middle high : Z)
  : outcome summed_span :=
  lb <- scan_left input middle (Z.to_nat (middle - low + 1)) 0 sentinel 0 ;;
  re <- scan_right input (middle + 1) (Z.to_nat (high - middle)) 0 sentinel 0 ;;
  let b := snd lb in
  let e := snd re in
  if e + 1 =? size input
  then summed_span2 input b (size input)
  else summed_span2 input b (e + 1).

(** The three-way choice that ends [maximum_subarray_recurse]. *)
Definition combine (onLeft onRight crossing : summed_span) : summed_span :=
  if (sum_ crossing >? sum_ onLeft) && (sum_ crossing >? sum_ onRight)
  then crossing
  else if (sum_ onLeft >? sum_ onRight) && (sum_ onLeft >? sum_ crossing)
       then onLeft
       else onRight.

(** [maximum_subarray_recurse]; [fuel] bounds the depth of the recursion.
    [avg] is a [size_t] in the source; converting the quotient to
    [size_t] and back to [int] at each use gives the quotient again. *)
Fixpoint maximum_subarray_recurse (fuel : nat) (input : vec) (low high : Z)
  : outcome summed_span :=
  match fuel with
  | O => Timeout
  | S f =>
      if low =? high
      then summed_span2 input low (low + 1)
      else
        let avg := Z.quot (low + high) 2 in
        onLeft <- maximum_subarray_recurse f input low avg ;;
        onRight <- maximum_subarray_recurse f input (avg + 1) high ;;
        crossing <- crossing_max_subarray input low avg high ;;
        Ret (combine onLeft onRight crossing)
  end.

Definition max_subarray_dbh (fuel : nat) (input : vec) : outcome summed_span :=
  match input with
  | [] => Abort
  | _ => maximum_subarray_recurse fuel input 0 (size input - 1)
  end.

(** ** subset_sum_exh *)

(** Conversion to [int] (32 bits, two's complement) and to [uint64_t]. *)
Definition to_int (z : Z) : Z := (z + 2 ^ 31) mod 2 ^ 32 - 2 ^ 31.
Definition to_uint64 (z : Z) : Z := z mod 2 ^ 64.

Section SubsetSum.

(** [1 << n] is evaluated in type [int]: the literal is an [int].  Up to
    [n = 31] the value [2 ^ n] is converted to [int], which for [n = 31]
    gives the least [int].  For [n >= 32] the shift count is not less than
    the width of the type and the result is undefined;
    [shift_past_width n] stands for the [int] the platform yields there. *)
Variable shift_past_width : Z -> Z.

Definition shl_one (n : Z) : Z :=
  if n <? 32 then to_int (Z.shiftl 1 n) else to_int (shift_past_width n).

(** [uint64_t largestInt = 1 << input.size();] *)
Definition largestInt (n : Z) : Z := to_uint64 (shl_one n).

(** The loop over [j] for the mask [i]; [cnt] iterations left. *)
Fixpoint subset_inner (input : vec) (target i j : Z) (cnt : nat)
  (candidate : list Z) : outcome (option (list Z)) :=
  match cnt with
  | O => Ret None
  | S c =>
      candidate <-
        (if Z.land (Z.shiftr i j) 1 =? 1
         then x <- at_ input j ;; Ret (candidate ++ [x])
         else Ret candidate) ;;
      let x := fold_left Z.add candidate 0 in
      if (0 <? Z.of_nat (length candidate)) && (x =? target)
      then Ret (Some candidate)
      else subset_inner input target i (j + 1) c candidate
  end.

(** The loop over the masks [i], [cnt] masks left before [largestInt]. *)
Fixpoint subset_outer (input : vec) (target i : Z) (cnt : nat)
  : outcome (option (list Z)) :=
  match cnt with
  | O => Ret None
  | S c =>
      r <- subset_inner input target i 0 (length input) [] ;;
      match r with
      | Some candidate => Ret (Some candidate)
      | None => subset_outer input target (to_uint64 (i + 1)) c
      end
  end.

Definition subset_sum_exh (input : vec) (target : Z)
  : outcome (option (list Z)) :=
  match input with
  | [] => Abort
  | _ =>
      if size input <? 64
      then subset_outer input target 0 (Z.to_nat (largestInt (size input)))
      else Abort
  end.

End SubsetSum.

(** Two platforms: the shift count taken modulo 32, and a shift past the
    width that clears the register. *)
Definition shift_count_masked (n : Z) : Z := Z.shiftl 1 (n mod 32).
Definition shift_clears (n : Z) : Z := 0.

End subarray.

Import subarray.

(** * Vocabulary of the specification *)

(** The arithmetic total of a list. *)
Definition zsum (l : list Z) : Z := fold_right Z.add 0 l.

(** The total of the elements of [input] in the half-open range [i, j). *)
Definition range_sum (input : vec) (i j : Z) : Z :=
  zsum (firstn (Z.to_nat (j - i)) (skipn (Z.to_nat i) input)).

(** [i, j) is a non-empty range of a vector of [n] elements. *)
Definition is_range (n i j : Z) : Prop := 0 <= i /\ i < j /\ j <= n.

(** The scan of [max_subarray_exh] visits [i, j) before [i', j'). *)
Definition scanned_before (i j i' j' : Z) : Prop :=
  i < i' \/ (i = i' /\ j < j').

(** The span [s] lies in [input] and stores the total of its range. *)
Definition span_ok (input : vec) (s : summed_span) : Prop :=
  is_range (size input) (begin_ s) (end_ s) /\
  sum_ s = range_sum input (begin_ s) (end_ s).

(** No element is at or below the sentinel of [crossing_max_subarray]. *)
Definition above_sentinel (input : vec) : Prop :=
  Forall (fun x => sentinel < x) input.

(** The elements of [l] whose position, counted from [j], has its bit set
    in [mask], in the order of [l]. *)
Fixpoint select_from (j : Z) (mask : Z) (l : list Z) : list Z :=
  match l with
  | [] => []
  | x :: r =>
      if Z.testbit mask j
      then x :: select_from (j + 1) mask r
      else select_from (j + 1) mask r
  end.

Definition select (mask : Z) (input : vec) : list Z := select_from 0 mask input.

(** [c] is obtained from [l] by deleting elements: a selection that keeps
    the relative order of the input. *)
Inductive subseq : list Z -> list Z -> Prop :=
| subseq_nil : subseq [] []
| subseq_skip c x l : subseq c l -> subseq c (x :: l)
| subseq_take c x l : subseq c l -> subseq (x :: c) (x :: l).

(** The mask [m] selects from [input] a non-empty subset of total [target]. *)
Definition hits (input : vec) (target m : Z) : Prop :=
  select m input <> [] /\ zsum (select m input) = target.

(** What the scan of [max_subarray_exh] has established when it is about
    to visit [i0, j0) with [be] as its best range: [be] is a range, no
    range visited so far has a greater total, and every range visited
    before [be] has a smaller one. *)
Definition exh_inv (input : vec) (i0 j0 : Z) (be : Z * Z) : Prop :=
  is_range (size input) (fst be) (snd be) /\
  (forall i j, is_range (size input) i j -> scanned_before i j i0 j0 ->
     range_sum input i j <= range_sum input (fst be) (snd be)) /\
  (forall i j, is_range (size input) i j -> scanned_before i j (fst be) (snd be) ->
     range_sum input i j < range_sum input (fst be) (snd be)).

(** No two non-empty ranges of [input] have the same total. *)
Definition distinct_sums (input : vec) : Prop :=
  forall i j i' j',
    is_range (size input) i j -> is_range (size input) i' j' ->
    range_sum input i j = range_sum input i' j' -> i = i' /\ j = j'.

(** Whenever a best range of a left part [low, mid] and a best range
    across the split tie, some range of the right part [mid + 1, high]
    totals at least as much. *)
Definition ties_harmless (input : vec) : Prop :=
  forall low mid high i j i' j',
    0 <= low -> high < size input ->
    low <= i -> i < j -> j <= mid + 1 ->
    low <= i' -> i' <= mid -> mid + 2 <= j' -> j' <= high + 1 ->
    (forall a b, low <= a -> a < b -> b <= mid + 1 ->
       range_sum input a b <= range_sum input i j) ->
    (forall a b, low <= a -> a <= mid -> mid + 2 <= b -> b <= high + 1 ->
       range_sum input a b <= range_sum input i' j') ->
    range_sum input i j = range_sum input i' j' ->
    exists a b, mid + 1 <= a /\ a < b /\ b <= high + 1 /\
                range_sum input i j <= range_sum input a b.

(** * Outcomes *)

Lemma bind_ret {A B} (m : outcome A) (k : A -> outcome B) (b : B) :
  bind m k = Ret b -> exists a, m = Ret a /\ k a = Ret b.
Proof. destruct m; simpl; intros H; try discriminate; eauto. Qed.

Lemma bind_not_timeout {A B} (m : outcome A) (k : A -> outcome B) :
  m <> Timeout -> (forall a, m = Ret a -> k a <> Timeout) -> bind m k <> Timeout.
Proof. destruct m; simpl; intros H1 H2; auto; discriminate. Qed.

(** * Sums of ranges *)

Lemma fold_left_add (l : list Z) (a : Z) : fold_left Z.add l a = a + zsum l.
Proof.
  revert a; induction l as [|x l IH]; intros a; simpl; [lia|].
  rewrite IH; lia.
Qed.

Lemma size_nonneg (input : vec) : 0 <= size input.
Proof. unfold size; lia. Qed.

Lemma range_sum_empty (input : vec) (i j : Z) : j <= i -> range_sum input i j = 0.
Proof.
  intros H; unfold range_sum.
  replace (Z.to_nat (j - i)) with 0%nat by lia. reflexivity.
Qed.

Lemma firstn_add_sum (a b : nat) (l : list Z) :
  zsum (firstn (a + b) l) = zsum (firstn a l) + zsum (firstn b (skipn a l)).
Proof.
  revert l; induction a as [|a IH]; intros l; simpl; [reflexivity|].
  destruct l as [|x l]; simpl.
  - rewrite firstn_nil; reflexivity.
  - rewrite IH; lia.
Qed.

Lemma range_sum_split (input : vec) (i k j : Z) :
  0 <= i -> i <= k -> k <= j ->
  range_sum input i j = range_sum input i k + range_sum input k j.
Proof.
  intros Hi Hik Hkj; unfold range_sum.
  replace (Z.to_nat (j - i)) with (Z.to_nat (k - i) + Z.to_nat (j - k))%nat by lia.
  rewrite firstn_add_sum, skipn_skipn.
  replace (Z.to_nat (k - i) + Z.to_nat i)%nat with (Z.to_nat k) by lia.
  reflexivity.
Qed.

Lemma firstn_1_skipn (n : nat) (l : list Z) :
  zsum (firstn 1 (skipn n l)) = nth n l 0.
Proof.
  revert l; induction n as [|n IH]; intros [|x l].
  - reflexivity.
  - simpl; lia.
  - reflexivity.
  - change (skipn (S n) (x :: l)) with (skipn n l).
    change (nth (S n) (x :: l) 0) with (nth n l 0). apply IH.
Qed.

Lemma range_sum_one (input : vec) (i : Z) :
  0 <= i -> range_sum input i (i + 1) = nth (Z.to_nat i) input 0.
Proof.
  intros Hi; unfold range_sum.
  replace (Z.to_nat (i + 1 - i)) with 1%nat by lia.
  apply firstn_1_skipn.
Qed.

Lemma range_sum_snoc (input : vec) (i j : Z) :
  0 <= i -> i <= j ->
  range_sum input i (j + 1) = range_sum input i j + nth (Z.to_nat j) input 0.
Proof.
  intros Hi Hij.
  rewrite (range_sum_split input i j (j + 1)) by lia.
  rewrite range_sum_one by lia. reflexivity.
Qed.

Lemma range_sum_cons (input : vec) (i j : Z) :
  0 <= i -> i < j ->
  range_sum input i j = nth (Z.to_nat i) input 0 + range_sum input (i + 1) j.
Proof.
  intros Hi Hij.
  rewrite (range_sum_split input i (i + 1) j) by lia.
  rewrite range_sum_one by lia. reflexivity.
Qed.

(** * Element access and the summing loop *)

Lemma at_in (input : vec) (k : Z) :
  0 <= k -> k < size input -> at_ input k = Ret (nth (Z.to_nat k) input 0).
Proof.
  intros H1 H2; unfold at_.
  destruct (Z.leb_spec 0 k); destruct (Z.ltb_spec k (size input)); simpl; auto; lia.
Qed.

Lemma at_not_timeout (input : vec) (k : Z) : at_ input k <> Timeout.
Proof. unfold at_; destruct (_ && _); discriminate. Qed.

Lemma sum_loop_ok (input : vec) (cnt : nat) :
  forall k acc, 0 <= k -> k + Z.of_nat cnt <= size input ->
  sum_loop input k cnt acc = Ret (acc + range_sum input k (k + Z.of_nat cnt)).
Proof.
  induction cnt as [|c IH]; intros k acc Hk Hle.
  - simpl. rewrite range_sum_empty by lia. f_equal; lia.
  - cbn [sum_loop]. rewrite at_in by lia. cbn [bind].
    rewrite IH by lia.
    rewrite (range_sum_cons input k (k + Z.of_nat (S c))) by lia.
    f_equal. replace (k + 1 + Z.of_nat c) with (k + Z.of_nat (S c)) by lia. lia.
Qed.

Lemma sum_loop_not_timeout (input : vec) (cnt : nat) :
  forall k acc, sum_loop input k cnt acc <> Timeout.
Proof.
  induction cnt as [|c IH]; intros k acc; simpl; [discriminate|].
  apply bind_not_timeout; [apply at_not_timeout | intros; apply IH].
Qed.

Lemma sum_from_to_ok (input : vec) (i j : Z) :
  0 <= i -> i <= j -> j <= size input ->
  sum_from_to input i j = Ret (range_sum input i j).
Proof.
  intros Hi Hij Hj; unfold sum_from_to.
  rewrite sum_loop_ok by lia.
  f_equal. replace (i + Z.of_nat (Z.to_nat (j - i))) with j by lia. lia.
Qed.

Lemma accumulate_ok (input : vec) (i j : Z) :
  0 <= i -> i <= j -> j <= size input ->
  accumulate input i j = Ret (range_sum input i j).
Proof.
  intros Hi Hij Hj; unfold accumulate.
  destruct (Z.leb_spec i j); [|lia].
  apply sum_from_to_ok; assumption.
Qed.

Lemma summed_span2_ok (input : vec) (b e : Z) :
  is_range (size input) b e ->
  summed_span2 input b e = Ret (mk_summed_span b e (range_sum input b e)).
Proof.
  intros (H1 & H2 & H3); unfold summed_span2.
  rewrite accumulate_ok by lia. cbn [bind]. unfold summed_span3.
  destruct (Z.ltb_spec b e); [reflexivity | lia].
Qed.

Lemma summed_span2_not_timeout (input : vec) (b e : Z) :
  summed_span2 input b e <> Timeout.
Proof.
  unfold summed_span2. apply bind_not_timeout.
  - unfold accumulate. destruct (b <=? e); [apply sum_loop_not_timeout | discriminate].
  - intros s _. unfold summed_span3. destruct (b <? e); discriminate.
Qed.

(** * summed_span: equality *)

(** C9: two spans compare equal exactly when their begin positions and
    their end positions are equal; the stored sums play no part, so spans
    over the same positions are equal whatever their sums. *)
Theorem span_eqb_positions :
  (forall s t : summed_span,
     span_eqb s t = true <-> begin_ s = begin_ t /\ end_ s = end_ t) /\
  (forall b e sum1 sum2 : Z,
     span_eqb (mk_summed_span b e sum1) (mk_summed_span b e sum2) = true).
Proof.
  split.
  - intros s t; unfold span_eqb.
    rewrite andb_true_iff, !Z.eqb_eq. reflexivity.
  - intros b e sum1 sum2; unfold span_eqb; simpl.
    rewrite !Z.eqb_refl. reflexivity.
Qed.

(** * The examples of the specification *)

Example single_element :
  max_subarray_exh [5] = Ret (mk_summed_span 0 1 5) /\
  max_subarray_dbh 1 [5] = Ret (mk_summed_span 0 1 5).
Proof. split; reflexivity. Qed.

Example all_negative :
  max_subarray_exh [-3; -1; -2] = Ret (mk_summed_span 1 2 (-1)) /\
  max_subarray_dbh 3 [-3; -1; -2] = Ret (mk_summed_span 1 2 (-1)).
Proof. split; reflexivity. Qed.

Example mixed_signs :
  max_subarray_exh [-2; 1; -3; 4; -1; 2; 1; -5; 4] = Ret (mk_summed_span 3 7 6) /\
  max_subarray_dbh 5 [-2; 1; -3; 4; -1; 2; 1; -5; 4] = Ret (mk_summed_span 3 7 6).
Proof. split; reflexivity. Qed.

Example subset_found :
  subset_sum_exh shift_count_masked [3; 34; 4; 12; 5; 2] 9 = Ret (Some [4; 5]) /\
  subset_sum_exh shift_count_masked [3; 34; 4; 12; 5; 2] 100 = Ret None.
Proof. split; vm_compute; reflexivity. Qed.

(** * max_subarray_exh *)

Section Exhaustive.

Variable input : vec.

Lemma exh_inner_inv (i : Z) (cnt : nat) :
  0 <= i -> i < size input ->
  forall j be, i < j -> j + Z.of_nat cnt = size input + 1 ->
  exh_inv input i j be ->
  exists be', exh_inner input i j cnt be = Ret be' /\ exh_inv input i (size input + 1) be'.
Proof.
  intros Hi Hin; induction cnt as [|c IH]; intros j be Hij Hcnt Hinv.
  - exists be; split; [reflexivity|].
    replace (size input + 1) with j by lia. exact Hinv.
  - destruct Hinv as (Hr & Hmax & Hfirst).
    destruct be as [b e]; cbn [fst snd] in *.
    destruct Hr as (Hb & Hbe & He).
    cbn [exh_inner fst snd].
    rewrite (sum_from_to_ok input i j) by lia.
    rewrite (sum_from_to_ok input b e) by lia.
    cbn [bind].
    apply IH; [lia | lia |].
    destruct (Z.gtb_spec (range_sum input i j) (range_sum input b e)) as [Hgt|Hle];
      repeat split; cbn [fst snd]; try lia.
    + intros i' j' Hr' [Hlt|[-> Hlt]].
      * specialize (Hmax i' j' Hr' (or_introl Hlt)). lia.
      * destruct (Z.eq_dec j' j) as [->|Hne]; [lia|].
        assert (Hs : scanned_before i j' i j) by (right; lia).
        specialize (Hmax i j' Hr' Hs). lia.
    + intros i' j' Hr' Hs.
      specialize (Hmax i' j' Hr' Hs). lia.
    + intros i' j' Hr' [Hlt|[-> Hlt]].
      * apply Hmax; [assumption | left; assumption].
      * destruct (Z.eq_dec j' j) as [->|Hne]; [lia|].
        apply Hmax; [assumption | right; lia].
    + exact Hfirst.
Qed.

Lemma exh_outer_inv (cnt : nat) :
  forall i be, 0 <= i -> i + Z.of_nat cnt = size input ->
  exh_inv input i (i + 1) be ->
  exists be', exh_outer input (size input) i cnt be = Ret be' /\ exh_inv input (size input) (size input + 1) be'.
Proof.
  induction cnt as [|c IH]; intros i be Hi Hcnt Hinv.
  - exists be; split; [reflexivity|].
    replace (size input) with i by lia. exact Hinv.
  - cbn [exh_outer].
    destruct (exh_inner_inv i (Z.to_nat (size input - i))) with (j := i + 1) (be := be)
      as (be1 & -> & Hinv1); try lia; [assumption|].
    cbn [bind]. apply IH; [lia | lia |].
    destruct Hinv1 as (Hr & Hmax & Hfirst).
    repeat split; try apply Hr; [|exact Hfirst].
    intros i' j' Hr' Hs. apply Hmax; [assumption|].
    destruct Hr' as (? & ? & ?).
    destruct Hs as [Hlt|[-> Hlt]]; [|lia].
    destruct (Z.eq_dec i' i) as [->|Hne]; [right; lia | left; lia].
Qed.

Lemma exh_scan :
  0 < size input ->
  exists b e,
    exh_outer input (size input) 0 (Z.to_nat (size input)) (0, 1) = Ret (b, e) /\
    is_range (size input) b e /\
    (forall i j, is_range (size input) i j -> range_sum input i j <= range_sum input b e) /\
    (forall i j, is_range (size input) i j -> scanned_before i j b e ->
       range_sum input i j < range_sum input b e).
Proof.
  intros Hn.
  destruct (exh_outer_inv (Z.to_nat (size input)) 0 (0, 1)) as ([b e] & Hrun & Hr & Hmax & Hfirst);
    try lia.
  - repeat split; cbn [fst snd]; try lia.
    + intros i j (? & ? & ?) [?|[? ?]]; lia.
    + intros i j (? & ? & ?) [?|[? ?]]; lia.
  - exists b, e. cbn [fst snd] in *.
    repeat split; try apply Hr; try assumption.
    intros i j Hr'. apply Hmax; [assumption|].
    destruct Hr' as (? & ? & ?). left; lia.
Qed.

End Exhaustive.

Lemma nonempty_size (input : vec) : input <> [] -> 0 < size input.
Proof. destruct input; [congruence | unfold size; simpl; lia]. Qed.

Lemma max_subarray_exh_run (input : vec) :
  input <> [] ->
  exists b e,
    max_subarray_exh input = Ret (mk_summed_span b e (range_sum input b e)) /\
    is_range (size input) b e /\
    (forall i j, is_range (size input) i j ->
       range_sum input i j <= range_sum input b e) /\
    (forall i j, is_range (size input) i j -> scanned_before i j b e ->
       range_sum input i j < range_sum input b e).
Proof.
  intros Hne.
  destruct (exh_scan input (nonempty_size input Hne)) as (b & e & Hrun & Hr & Hmax & Hfirst).
  exists b, e; repeat split; try apply Hr; try assumption.
  unfold max_subarray_exh. destruct input as [|x r]; [congruence|].
  cbv zeta. rewrite Hrun. cbn [bind fst snd].
  destruct (Z.eqb_spec e (size (x :: r))) as [<-|_];
    apply summed_span2_ok; assumption.
Qed.

(** C2: on a non-empty vector [max_subarray_exh] returns a span over a
    non-empty range of the input, with the total of that range as its sum;
    no non-empty range has a greater total, and every range that the scan
    (ascending [i], then ascending [j], starting at [0, 1)) visits before
    the returned one has a strictly smaller total, so ties keep the range
    found first; when all elements are negative the range has one
    element. *)
Theorem max_subarray_exh_correct (input : vec) :
  input <> [] ->
  exists s,
    max_subarray_exh input = Ret s /\
    span_ok input s /\
    (forall i j, is_range (size input) i j -> range_sum input i j <= sum_ s) /\
    (forall i j, is_range (size input) i j ->
       scanned_before i j (begin_ s) (end_ s) -> range_sum input i j < sum_ s) /\
    (Forall (fun x => x < 0) input -> end_ s = begin_ s + 1).
Proof.
  intros Hne.
  destruct (max_subarray_exh_run input Hne) as (b & e & Hrun & Hr & Hmax & Hfirst).
  eexists; split; [exact Hrun|]. cbn [begin_ end_ sum_].
  repeat split; try apply Hr; try assumption.
  intros Hneg.
  destruct Hr as (Hb & Hbe & He).
  destruct (Z.eq_dec e (b + 1)) as [|Hlong]; [assumption | exfalso].
  assert (Hshort : is_range (size input) b (e - 1)) by (unfold is_range; lia).
  specialize (Hmax b (e - 1) Hshort).
  replace e with (e - 1 + 1) in Hmax at 2 by lia.
  rewrite range_sum_snoc in Hmax by lia.
  rewrite Forall_forall in Hneg.
  assert (nth (Z.to_nat (e - 1)) input 0 < 0).
  { apply Hneg, nth_In. unfold size in He. lia. }
  lia.
Qed.

Lemma max_subarray_exh_correct_witness :
  exists s,
    max_subarray_exh [-3; -1; -2] = Ret s /\
    span_ok [-3; -1; -2] s /\
    (forall i j, is_range 3 i j -> range_sum [-3; -1; -2] i j <= sum_ s) /\
    (forall i j, is_range 3 i j ->
       scanned_before i j (begin_ s) (end_ s) -> range_sum [-3; -1; -2] i j < sum_ s) /\
    (Forall (fun x => x < 0) [-3; -1; -2] -> end_ s = begin_ s + 1).
Proof. apply (max_subarray_exh_correct [-3; -1; -2]). discriminate. Defined.

(** * maximum_subarray_recurse: the combine step and termination *)

(** C3: for [low < high], once the two recursive calls and the crossing
    call have returned, [maximum_subarray_recurse] returns the crossing
    span when its sum is strictly greater than both other sums, the left
    span when its sum is strictly greater than both the right and the
    crossing sums, and the right span in every other case, ties with the
    right span included. *)
Theorem recurse_combine_step (fuel : nat) (input : vec) (low high : Z)
  (onLeft onRight crossing : summed_span) :
  low < high ->
  maximum_subarray_recurse fuel input low (Z.quot (low + high) 2) = Ret onLeft ->
  maximum_subarray_recurse fuel input (Z.quot (low + high) 2 + 1) high = Ret onRight ->
  crossing_max_subarray input low (Z.quot (low + high) 2) high = Ret crossing ->
  exists r,
    maximum_subarray_recurse (S fuel) input low high = Ret r /\
    (sum_ crossing > sum_ onLeft /\ sum_ crossing > sum_ onRight -> r = crossing) /\
    (sum_ onLeft > sum_ onRight /\ sum_ onLeft > sum_ crossing -> r = onLeft) /\
    (~ (sum_ crossing > sum_ onLeft /\ sum_ crossing > sum_ onRight) ->
     ~ (sum_ onLeft > sum_ onRight /\ sum_ onLeft > sum_ crossing) -> r = onRight).
Proof.
  intros Hlt HL HR HC.
  exists (combine onLeft onRight crossing). split.
  - cbn [maximum_subarray_recurse].
    destruct (Z.eqb_spec low high); [lia|].
    cbv zeta. rewrite HL, HR, HC. reflexivity.
  - unfold combine.
    destruct (Z.gtb_spec (sum_ crossing) (sum_ onLeft));
      destruct (Z.gtb_spec (sum_ crossing) (sum_ onRight));
      destruct (Z.gtb_spec (sum_ onLeft) (sum_ onRight));
      destruct (Z.gtb_spec (sum_ onLeft) (sum_ crossing));
      cbn [andb]; repeat split; intros; try reflexivity; exfalso; lia.
Qed.

Lemma recurse_combine_step_witness :
  exists r,
    maximum_subarray_recurse 2 [1; 2] 0 1 = Ret r /\
    (3 > 1 /\ 3 > 2 -> r = mk_summed_span 0 2 3) /\
    (1 > 2 /\ 1 > 3 -> r = mk_summed_span 0 1 1) /\
    (~ (3 > 1 /\ 3 > 2) -> ~ (1 > 2 /\ 1 > 3) -> r = mk_summed_span 1 2 2).
Proof.
  apply (recurse_combine_step 1 [1; 2] 0 1
           (mk_summed_span 0 1 1) (mk_summed_span 1 2 2) (mk_summed_span 0 2 3)).
  - lia.
  - reflexivity.
  - reflexivity.
  - reflexivity.
Defined.

Lemma scan_left_not_timeout (input : vec) (cnt : nat) :
  forall i trueSum sumL b, scan_left input i cnt trueSum sumL b <> Timeout.
Proof.
  induction cnt as [|c IH]; intros i t sumL b; cbn [scan_left]; [discriminate|].
  apply bind_not_timeout; [apply at_not_timeout|].
  intros x _. cbv zeta. destruct (_ >? _); apply IH.
Qed.

Lemma scan_right_not_timeout (input : vec) (cnt : nat) :
  forall j trueSum sumR e, scan_right input j cnt trueSum sumR e <> Timeout.
Proof.
  induction cnt as [|c IH]; intros j t sumR e; cbn [scan_right]; [discriminate|].
  apply bind_not_timeout; [apply at_not_timeout|].
  intros x _. cbv zeta. destruct (_ >? _); apply IH.
Qed.

Lemma crossing_not_timeout (input : vec) (low middle high : Z) :
  crossing_max_subarray input low middle high <> Timeout.
Proof.
  unfold crossing_max_subarray.
  apply bind_not_timeout; [apply scan_left_not_timeout|]. intros lb _.
  apply bind_not_timeout; [apply scan_right_not_timeout|]. intros re _.
  cbv zeta. destruct (_ =? _); apply summed_span2_not_timeout.
Qed.

(** The split point of an inclusive range of non-negative indices. *)
Lemma avg_bounds (low high : Z) :
  0 <= low -> low < high ->
  low <= Z.quot (low + high) 2 /\ Z.quot (low + high) 2 < high.
Proof.
  intros H0 Hlt. rewrite Z.quot_div_nonneg by lia.
  split.
  - apply Z.div_le_lower_bound; lia.
  - apply Z.div_lt_upper_bound; lia.
Qed.

(** Halving a range of at least two elements lowers [log2_up] of its
    length. *)
Lemma log2_up_half (s s' : Z) :
  2 <= s -> 0 < s' -> 2 * s' <= s + 1 -> Z.log2_up s' < Z.log2_up s.
Proof.
  intros Hs Hs' Hhalf.
  assert (Hk : 0 < Z.log2_up s) by (apply Z.log2_up_pos; lia).
  assert (Hpow : s <= 2 ^ Z.log2_up s).
  { apply Z.log2_up_le_pow2; lia. }
  assert (Hpred : Z.log2_up s' <= Z.log2_up s - 1).
  { apply Z.log2_up_le_pow2; [lia|].
    assert (2 ^ Z.log2_up s = 2 * 2 ^ (Z.log2_up s - 1)).
    { rewrite <- Z.pow_succ_r by lia. f_equal; lia. }
    lia. }
  lia.
Qed.

(** C10: on an inclusive range of non-negative indices with [low <= high]
    the recursion ends.  For [low < high] the split point lies in
    [low, high), so the two recursive calls are on the strictly shorter
    ranges [low, avg] and [avg + 1, high]; with a depth allowance above
    [log2_up (high - low + 1)] the call never runs out of it. *)
Theorem recurse_terminates (input : vec) (low high : Z) :
  0 <= low -> low <= high ->
  (low < high ->
     low <= Z.quot (low + high) 2 < high /\
     Z.quot (low + high) 2 - low < high - low /\
     high - (Z.quot (low + high) 2 + 1) < high - low) /\
  (forall fuel : nat,
     Z.log2_up (high - low + 1) < Z.of_nat fuel ->
     maximum_subarray_recurse fuel input low high <> Timeout).
Proof.
  intros H0 Hle. split.
  - intros Hlt. pose proof (avg_bounds low high H0 Hlt). lia.
  - intros fuel. revert low high H0 Hle.
    induction fuel as [|f IH]; intros low high H0 Hle Hfuel.
    + pose proof (Z.log2_up_nonneg (high - low + 1)). lia.
    + cbn [maximum_subarray_recurse].
      destruct (Z.eqb_spec low high) as [_|Hne];
        [apply summed_span2_not_timeout|].
      cbv zeta.
      pose proof (avg_bounds low high H0 ltac:(lia)) as [Ha Hb].
      assert (Hq : Z.quot (low + high) 2 = (low + high) / 2)
        by (apply Z.quot_div_nonneg; lia).
      assert (Hd : 2 * ((low + high) / 2) <= low + high < 2 * ((low + high) / 2) + 2).
      { pose proof (Z.div_mod (low + high) 2 ltac:(lia)).
        pose proof (Z.mod_pos_bound (low + high) 2 ltac:(lia)). lia. }
      apply bind_not_timeout.
      { apply IH; try lia.
        pose proof (log2_up_half (high - low + 1)
                      (Z.quot (low + high) 2 - low + 1)). lia. }
      intros onLeft _. apply bind_not_timeout.
      { apply IH; try lia.
        pose proof (log2_up_half (high - low + 1)
                      (high - (Z.quot (low + high) 2 + 1) + 1)). lia. }
      intros onRight _. apply bind_not_timeout; [apply crossing_not_timeout|].
      intros crossing _. discriminate.
Qed.

Lemma recurse_terminates_witness :
  (0 < 3 ->
     0 <= Z.quot (0 + 3) 2 < 3 /\
     Z.quot (0 + 3) 2 - 0 < 3 - 0 /\
     3 - (Z.quot (0 + 3) 2 + 1) < 3 - 0) /\
  (forall fuel : nat,
     Z.log2_up (3 - 0 + 1) < Z.of_nat fuel ->
     maximum_subarray_recurse fuel [4; -1; 2; 1] 0 3 <> Timeout).
Proof. apply (recurse_terminates [4; -1; 2; 1] 0 3); lia. Defined.

(** * subset_sum_exh: masks and selections *)

Lemma testbit_mask (i j : Z) :
  0 <= j -> (Z.land (Z.shiftr i j) 1 =? 1) = Z.testbit i j.
Proof.
  intros Hj. rewrite Z.testbit_odd.
  replace (Z.land (Z.shiftr i j) 1) with (Z.land (Z.shiftr i j) (Z.ones 1))
    by reflexivity.
  rewrite Z.land_ones by lia. change (2 ^ 1) with 2.
  rewrite Zmod_odd. destruct (Z.odd _); reflexivity.
Qed.

Lemma select_from_app (m : Z) (l1 l2 : list Z) :
  forall j, select_from j m (l1 ++ l2) =
            select_from j m l1 ++ select_from (j + Z.of_nat (length l1)) m l2.
Proof.
  induction l1 as [|x l1 IH]; intros j.
  - simpl. f_equal. lia.
  - cbn [app select_from length]. rewrite IH.
    replace (j + 1 + Z.of_nat (length l1)) with (j + Z.of_nat (S (length l1))) by lia.
    destruct (Z.testbit m j); reflexivity.
Qed.

Lemma select_from_ext (m m' : Z) (l : list Z) :
  forall j,
    (forall k, j <= k < j + Z.of_nat (length l) -> Z.testbit m k = Z.testbit m' k) ->
    select_from j m l = select_from j m' l.
Proof.
  induction l as [|x l IH]; intros j Hbits; [reflexivity|].
  cbn [select_from length] in *.
  rewrite (Hbits j) by lia.
  rewrite (IH (j + 1)) by (intros k Hk; apply Hbits; lia).
  reflexivity.
Qed.

Lemma select_from_none (m : Z) (l : list Z) :
  forall j, (forall k, j <= k -> Z.testbit m k = false) -> select_from j m l = [].
Proof.
  induction l as [|x l IH]; intros j Hbits; [reflexivity|].
  cbn [select_from]. rewrite (Hbits j) by lia.
  apply IH. intros k Hk; apply Hbits; lia.
Qed.

Lemma select_from_subseq (m : Z) (l : list Z) :
  forall j, subseq (select_from j m l) l.
Proof.
  induction l as [|x l IH]; intros j; cbn [select_from]; [constructor|].
  destruct (Z.testbit m j); constructor; apply IH.
Qed.

Lemma firstn_snoc (k : nat) (l : list Z) :
  (k < length l)%nat -> firstn (S k) l = firstn k l ++ [nth k l 0].
Proof.
  revert l; induction k as [|k IH]; intros [|x l] Hk; simpl in Hk; try lia.
  - reflexivity.
  - change (firstn (S (S k)) (x :: l)) with (x :: firstn (S k) l).
    rewrite IH by lia. reflexivity.
Qed.

(** Selecting with [m] from the first [k] elements is selecting from the
    whole input with the low [k] bits of [m]. *)
Lemma select_prefix (m : Z) (k : nat) (input : vec) :
  (k <= length input)%nat ->
  select m (firstn k input) = select (m mod 2 ^ Z.of_nat k) input.
Proof.
  intros Hk. unfold select.
  rewrite <- (firstn_skipn k input) at 2.
  rewrite select_from_app, length_firstn, Nat.min_l by assumption.
  rewrite (select_from_none _ (skipn k input)).
  - rewrite app_nil_r. apply select_from_ext.
    intros j Hj. rewrite length_firstn in Hj.
    symmetry. apply Z.mod_pow2_bits_low. lia.
  - intros j Hj. apply Z.mod_pow2_bits_high. lia.
Qed.

Lemma select_zero (input : vec) : select 0 input = [].
Proof. apply select_from_none. intros k _. apply Z.testbit_0_l. Qed.

Lemma nonempty_length (c : list Z) :
  (0 <? Z.of_nat (length c)) = true <-> c <> [].
Proof.
  destruct c; simpl; split; intros H; try congruence; try discriminate.
  apply Z.ltb_lt. lia.
Qed.

(** The loop over [j] returns at the first prefix of the mask's selection
    that is non-empty and totals [target], and finishes when there is
    none. *)
Lemma subset_inner_spec (input : vec) (target i : Z) (cnt : nat) :
  forall j cand,
    0 <= j -> j + Z.of_nat cnt = size input ->
    cand = select i (firstn (Z.to_nat j) input) ->
    (exists j', j <= j' < size input /\
       subset_inner input target i j cnt cand =
         Ret (Some (select i (firstn (Z.to_nat (j' + 1)) input))) /\
       select i (firstn (Z.to_nat (j' + 1)) input) <> [] /\
       zsum (select i (firstn (Z.to_nat (j' + 1)) input)) = target)
    \/
    (subset_inner input target i j cnt cand = Ret None /\
     forall j', j <= j' < size input ->
       ~ (select i (firstn (Z.to_nat (j' + 1)) input) <> [] /\
          zsum (select i (firstn (Z.to_nat (j' + 1)) input)) = target)).
Proof.
  induction cnt as [|c IH]; intros j cand Hj Hcnt Hcand.
  - right; split; [reflexivity | intros j' Hj'; lia].
  - cbn [subset_inner]. rewrite testbit_mask by lia.
    assert (Hnext :
      (if Z.testbit i j
       then x <- at_ input j;; Ret (cand ++ [x])
       else Ret cand) = Ret (select i (firstn (Z.to_nat (j + 1)) input))).
    { replace (Z.to_nat (j + 1)) with (S (Z.to_nat j)) by lia.
      rewrite firstn_snoc by (unfold size in Hcnt; lia).
      unfold select. rewrite select_from_app.
      rewrite length_firstn, Nat.min_l by (unfold size in Hcnt; lia).
      cbn [select_from]. replace (0 + Z.of_nat (Z.to_nat j)) with j by lia.
      rewrite at_in by lia.
      destruct (Z.testbit i j); cbn [bind]; rewrite Hcand; unfold select;
        [reflexivity | rewrite app_nil_r; reflexivity]. }
    rewrite Hnext. cbn [bind]. cbv zeta.
    set (c1 := select i (firstn (Z.to_nat (j + 1)) input)).
    rewrite fold_left_add, Z.add_0_l.
    destruct ((0 <? Z.of_nat (length c1)) && (zsum c1 =? target)) eqn:Htest.
    + left. exists j. apply andb_true_iff in Htest as [Hlen Hsum].
      apply nonempty_length in Hlen. apply Z.eqb_eq in Hsum.
      repeat split; try assumption; lia.
    + destruct (IH (j + 1) c1) as [(j' & Hj' & Hrun & Hhit)|[Hrun Hnone]];
        try lia; [reflexivity | |].
      * left. exists j'. repeat split; try apply Hhit; try assumption; lia.
      * right. split; [assumption|]. intros j' Hj' [Hne Hsum].
        destruct (Z.eq_dec j' j) as [->|Hneq].
        -- fold c1 in Hne, Hsum.
           apply nonempty_length in Hne. apply Z.eqb_eq in Hsum.
           rewrite Hne, Hsum in Htest. discriminate.
        -- apply (Hnone j'); [lia | split; assumption].
Qed.

(** The loop over the masks returns the selection of the least mask that
    hits the target, and finishes without one when no mask below the bound
    does. *)
Lemma subset_outer_spec (input : vec) (target bound : Z) (cnt : nat) :
  0 < size input -> bound < 2 ^ 64 ->
  forall i,
    0 <= i -> i + Z.of_nat cnt = bound ->
    (forall m, 0 <= m < i -> ~ hits input target m) ->
    (exists m, i <= m < bound /\ m < 2 ^ size input /\
       subset_outer input target i cnt = Ret (Some (select m input)) /\
       hits input target m /\
       forall m', 0 <= m' < m -> ~ hits input target m')
    \/
    (subset_outer input target i cnt = Ret None /\
     forall m, 0 <= m < bound -> ~ hits input target m).
Proof.
  intros Hn Hbound.
  induction cnt as [|c IH]; intros i Hi Hcnt Hbelow.
  - right; split; [reflexivity | intros m Hm; apply Hbelow; lia].
  - cbn [subset_outer].
    destruct (subset_inner_spec input target i (length input) 0 [])
      as [(j' & Hj' & Hrun & Hhit)|[Hrun Hnone]]; try reflexivity;
      try (unfold size; lia); rewrite Hrun; cbn [bind].
    + left.
      rewrite select_prefix in Hrun, Hhit |- * by (unfold size in Hj'; lia).
      rewrite Z2Nat.id in Hrun, Hhit |- * by lia.
      pose proof (Z.mod_pos_bound i (2 ^ (j' + 1)) ltac:(lia)) as Hmod.
      assert (Hle : i mod 2 ^ (j' + 1) <= i) by (apply Z.mod_le; lia).
      destruct (Z.eq_dec (i mod 2 ^ (j' + 1)) i) as [Heq|Hneq].
      * rewrite Heq in *. exists i.
        assert (2 ^ (j' + 1) <= 2 ^ size input)
          by (apply Z.pow_le_mono_r; lia).
        repeat split; try assumption; try apply Hhit; lia.
      * exfalso. apply (Hbelow (i mod 2 ^ (j' + 1))); [lia | exact Hhit].
    + assert (Hi_miss : ~ hits input target i).
      { specialize (Hnone (size input - 1) ltac:(lia)).
        replace (Z.to_nat (size input - 1 + 1)) with (length input) in Hnone
          by (unfold size; lia).
        rewrite firstn_all in Hnone. exact Hnone. }
      assert (Hnext : to_uint64 (i + 1) = i + 1)
        by (unfold to_uint64; apply Z.mod_small; lia).
      rewrite Hnext.
      destruct (IH (i + 1)) as [(m & Hm & Hrest)|[Hrun' Hnone']]; try lia.
      * intros m Hm. destruct (Z.eq_dec m i) as [->|]; [assumption|].
        apply Hbelow; lia.
      * left. exists m. split; [lia | exact Hrest].
      * right. split; assumption.
Qed.

Lemma largestInt_range (shift_past_width : Z -> Z) (n : Z) :
  0 <= largestInt shift_past_width n < 2 ^ 64.
Proof. unfold largestInt, to_uint64. apply Z.mod_pos_bound. lia. Qed.

(** What a call within the contract does, whatever the shift yields. *)
Lemma subset_sum_exh_spec (shift_past_width : Z -> Z) (input : vec) (target : Z) :
  input <> [] -> size input < 64 ->
  (exists m, 0 <= m < largestInt shift_past_width (size input) /\
     m < 2 ^ size input /\
     subset_sum_exh shift_past_width input target = Ret (Some (select m input)) /\
     hits input target m /\
     forall m', 0 <= m' < m -> ~ hits input target m')
  \/
  (subset_sum_exh shift_past_width input target = Ret None /\
   forall m, 0 <= m < largestInt shift_past_width (size input) ->
     ~ hits input target m).
Proof.
  intros Hne Hsize.
  pose proof (largestInt_range shift_past_width (size input)) as HL.
  assert (Hrun : subset_sum_exh shift_past_width input target =
                 subset_outer input target 0
                   (Z.to_nat (largestInt shift_past_width (size input)))).
  { unfold subset_sum_exh. destruct input; [congruence|].
    destruct (Z.ltb_spec (size (z :: input)) 64); [reflexivity | lia]. }
  rewrite Hrun.
  destruct (subset_outer_spec input target
              (largestInt shift_past_width (size input))
              (Z.to_nat (largestInt shift_past_width (size input)))
              (nonempty_size input Hne) ltac:(lia) 0)
    as [(m & Hm & Hrest)|Hnone]; try lia.
  - left. exists m. split; [lia | exact Hrest].
  - right. exact Hnone.
Qed.

Lemma subset_sum_exh_contract (shift_past_width : Z -> Z) (input : vec)
  (target : Z) (r : option (list Z)) :
  subset_sum_exh shift_past_width input target = Ret r ->
  input <> [] /\ size input < 64.
Proof.
  unfold subset_sum_exh. destruct input; [discriminate|].
  destruct (Z.ltb_spec (size (z :: input)) 64); [|discriminate].
  intros _. split; [discriminate | assumption].
Qed.

Lemma select_one (x : Z) (rest : list Z) : select 1 (x :: rest) = [x].
Proof.
  unfold select. cbn [select_from]. change (Z.testbit 1 0) with true.
  rewrite select_from_none; [reflexivity|].
  intros k Hk. apply Z.bits_above_log2; [lia|]. change (Z.log2 1) with 0. lia.
Qed.

Lemma select_from_double (m : Z) (b : bool) (l : list Z) :
  forall j, 0 <= j ->
    select_from (j + 1) (2 * m + Z.b2z b) l = select_from j m l.
Proof.
  induction l as [|x l IH]; intros j Hj; [reflexivity|].
  cbn [select_from]. rewrite IH by lia.
  replace (j + 1) with (Z.succ j) at 1 by lia.
  rewrite Z.testbit_succ_r by lia. reflexivity.
Qed.

Lemma subseq_nil_l (l : list Z) : subseq [] l.
Proof. induction l; constructor; assumption. Qed.

Lemma In_subseq (x : Z) (l : list Z) : In x l -> subseq [x] l.
Proof.
  induction l as [|y l IH]; intros Hin; [contradiction|].
  destruct Hin as [->|Hin].
  - apply subseq_take, subseq_nil_l.
  - apply subseq_skip, IH, Hin.
Qed.

(** Every selection that keeps the input order is the selection of a mask. *)
Lemma subseq_select (c l : list Z) :
  subseq c l ->
  exists m, 0 <= m < 2 ^ Z.of_nat (length l) /\ select m l = c.
Proof.
  induction 1 as [|c x l _ (m & Hm & Hsel)|c x l _ (m & Hm & Hsel)].
  - exists 0. split; [simpl; lia | reflexivity].
  - exists (2 * m + Z.b2z false). split.
    + cbn [length Z.b2z]. rewrite Nat2Z.inj_succ, Z.pow_succ_r by lia. lia.
    + unfold select in *. cbn [select_from].
      rewrite Z.testbit_0_r, (select_from_double m false l 0) by lia.
      assumption.
  - exists (2 * m + Z.b2z true). split.
    + cbn [length Z.b2z]. rewrite Nat2Z.inj_succ, Z.pow_succ_r by lia. lia.
    + unfold select in *. cbn [select_from].
      rewrite Z.testbit_0_r, (select_from_double m true l 0) by lia.
      congruence.
Qed.

(** Below 32 elements the shift is defined and the bound covers every
    mask. *)
Lemma largestInt_covers (shift_past_width : Z -> Z) (n : Z) :
  0 <= n < 32 -> 2 ^ n <= largestInt shift_past_width n.
Proof.
  intros Hn. unfold largestInt, shl_one.
  destruct (Z.ltb_spec n 32); [|lia].
  rewrite Z.shiftl_1_l.
  destruct (Z.eq_dec n 31) as [->|Hne]; [vm_compute; discriminate|].
  assert (Hlt : 2 ^ n < 2 ^ 31) by (apply Z.pow_lt_mono_r; lia).
  assert (Hpos : 0 < 2 ^ n) by (apply Z.pow_pos_nonneg; lia).
  change (2 ^ 31) with 2147483648 in Hlt.
  unfold to_int, to_uint64.
  change (2 ^ 31) with 2147483648. change (2 ^ 32) with 4294967296.
  change (2 ^ 64) with 18446744073709551616.
  rewrite (Z.mod_small (2 ^ n + 2147483648)) by lia.
  rewrite Z.mod_small by lia. lia.
Qed.

(** Within the contract and below 32 elements the search finds a subset
    whenever a non-empty one with the right total exists. *)
Lemma subset_sum_exh_complete (shift_past_width : Z -> Z) (input : vec)
  (target : Z) (c : list Z) :
  input <> [] -> size input < 32 ->
  subseq c input -> c <> [] -> zsum c = target ->
  exists c', subset_sum_exh shift_past_width input target = Ret (Some c').
Proof.
  intros Hne Hsize Hsub Hc Hsum.
  destruct (subset_sum_exh_spec shift_past_width input target Hne ltac:(lia))
    as [(m & _ & _ & Hrun & _)|[_ Hnone]]; [eauto|exfalso].
  destruct (subseq_select c input Hsub) as (m & Hm & Hsel).
  pose proof (largestInt_covers shift_past_width (size input)
                ltac:(pose proof (size_nonneg input); lia)).
  apply (Hnone m); [unfold size in *; lia|].
  unfold hits. rewrite Hsel. split; assumption.
Qed.

(** A present result is the selection of the least mask that hits the
    target. *)
Lemma subset_sum_exh_present (shift_past_width : Z -> Z) (input : vec)
  (target : Z) (c : list Z) :
  subset_sum_exh shift_past_width input target = Ret (Some c) ->
  exists m,
    0 <= m < 2 ^ size input /\
    c = select m input /\
    hits input target m /\
    (forall m', 0 <= m' < m -> ~ hits input target m').
Proof.
  intros Hrun.
  destruct (subset_sum_exh_contract _ _ _ _ Hrun) as [Hne Hsize].
  destruct (subset_sum_exh_spec shift_past_width input target Hne Hsize)
    as [(m & Hm & Hpow & Hrun' & Hhit & Hleast)|[Hrun' _]];
    rewrite Hrun' in Hrun; [|discriminate].
  injection Hrun as <-.
  exists m. repeat split; try assumption; try apply Hhit; lia.
Qed.

(** C4: a present result of [subset_sum_exh] is the selection of a mask
    below [2 ^ size]: the least mask whose selection is non-empty and
    totals [target] (for a non-zero [target], the least mask whose
    selection totals [target] at all); the selection takes the elements by
    ascending bit position, so it keeps their input order. *)
Theorem subset_sum_exh_least_mask (shift_past_width : Z -> Z) (input : vec)
  (target : Z) (c : list Z) :
  subset_sum_exh shift_past_width input target = Ret (Some c) ->
  exists m,
    0 <= m < 2 ^ size input /\
    c = select m input /\
    hits input target m /\
    (forall m', 0 <= m' < m -> ~ hits input target m') /\
    (target <> 0 ->
       forall m', 0 <= m' < m -> zsum (select m' input) <> target) /\
    subseq c input.
Proof.
  intros Hrun.
  destruct (subset_sum_exh_present _ _ _ _ Hrun) as (m & Hm & -> & Hhit & Hleast).
  exists m. split; [exact Hm|]. split; [reflexivity|].
  split; [exact Hhit|]. split; [exact Hleast|]. split.
  - intros Htarget m' Hm' Hsum. apply (Hleast m' Hm').
    split; [|assumption].
    intros Hnil. rewrite Hnil in Hsum. simpl in Hsum. congruence.
  - apply select_from_subseq.
Qed.

Lemma subset_sum_exh_least_mask_witness :
  exists m,
    0 <= m < 2 ^ size [3; 34; 4; 12; 5; 2] /\
    [4; 5] = select m [3; 34; 4; 12; 5; 2] /\
    hits [3; 34; 4; 12; 5; 2] 9 m /\
    (forall m', 0 <= m' < m -> ~ hits [3; 34; 4; 12; 5; 2] 9 m') /\
    (9 <> 0 ->
       forall m', 0 <= m' < m -> zsum (select m' [3; 34; 4; 12; 5; 2]) <> 9) /\
    subseq [4; 5] [3; 34; 4; 12; 5; 2].
Proof.
  apply (subset_sum_exh_least_mask shift_count_masked [3; 34; 4; 12; 5; 2] 9 [4; 5]).
  reflexivity.
Defined.

(** C7: [subset_sum_exh] never returns an empty selection, whatever the
    target: a present result is a non-empty selection of input elements
    that totals [target]; within the contract, when no non-empty selection
    totals [target] (the empty one is the only candidate) the result is
    absent; and for target 0 an input below 32 elements that holds a zero
    has a present, non-empty result, which is the all-zero subset made of
    the first element when that element is the zero. *)
Theorem subset_sum_exh_never_empty (shift_past_width : Z -> Z) :
  (forall input target c,
     subset_sum_exh shift_past_width input target = Ret (Some c) ->
     c <> [] /\ zsum c = target /\ subseq c input) /\
  (forall input target,
     input <> [] -> size input < 64 ->
     (forall c, subseq c input -> zsum c = target -> c = []) ->
     subset_sum_exh shift_past_width input target = Ret None) /\
  (forall input,
     size input < 32 -> In 0 input ->
     exists c, subset_sum_exh shift_past_width input 0 = Ret (Some c) /\
               c <> [] /\ zsum c = 0) /\
  (forall rest,
     size (0 :: rest) < 32 ->
     subset_sum_exh shift_past_width (0 :: rest) 0 = Ret (Some [0])).
Proof.
  split; [|split; [|split]].
  - intros input target c Hrun.
    destruct (subset_sum_exh_present _ _ _ _ Hrun)
      as (m & _ & -> & [Hne Hsum] & _).
    split; [exact Hne|]. split; [exact Hsum | apply select_from_subseq].
  - intros input target Hne Hsize Honly.
    destruct (subset_sum_exh_spec shift_past_width input target Hne Hsize)
      as [(m & _ & _ & _ & [Hsel Hsum] & _)|[Hrun _]]; [exfalso|assumption].
    apply Hsel, Honly; [apply select_from_subseq | assumption].
  - intros input Hsize Hin.
    assert (Hne : input <> []) by (intros ->; contradiction).
    destruct (subset_sum_exh_complete shift_past_width input 0 [0] Hne Hsize)
      as (c & Hrun); [apply In_subseq; assumption | discriminate | reflexivity |].
    exists c. split; [exact Hrun|].
    destruct (subset_sum_exh_present _ _ _ _ Hrun)
      as (m & _ & -> & [Hnil Hsum] & _).
    split; assumption.
  - intros rest Hsize.
    assert (Hne : 0 :: rest <> []) by discriminate.
    assert (Hone : hits (0 :: rest) 0 1).
    { unfold hits. rewrite select_one. split; [discriminate | reflexivity]. }
    assert (Hcover : 2 <= largestInt shift_past_width (size (0 :: rest))).
    { pose proof (nonempty_size _ Hne) as Hpos.
      pose proof (largestInt_covers shift_past_width (size (0 :: rest))
                    ltac:(lia)) as Hle.
      assert (2 ^ 1 <= 2 ^ size (0 :: rest)) by (apply Z.pow_le_mono_r; lia).
      change (2 ^ 1) with 2 in *. lia. }
    destruct (subset_sum_exh_spec shift_past_width (0 :: rest) 0 Hne ltac:(lia))
      as [(m & Hm & _ & Hrun & [Hsel _] & Hleast)|[_ Hnone]].
    + assert (m = 1) as ->.
      { destruct (Z.eq_dec m 0) as [->|]; [rewrite select_zero in Hsel; congruence|].
        destruct (Z_lt_le_dec 1 m) as [Hgt|]; [|lia].
        exfalso. apply (Hleast 1); [lia | exact Hone]. }
      rewrite Hrun, select_one. reflexivity.
    + exfalso. apply (Hnone 1); [lia | exact Hone].
Qed.

Lemma subset_sum_exh_never_empty_witness :
  ([4; 5] <> [] /\ zsum [4; 5] = 9 /\ subseq [4; 5] [3; 34; 4; 12; 5; 2]) /\
  subset_sum_exh shift_count_masked [1; 2] 0 = Ret None /\
  (exists c, subset_sum_exh shift_count_masked [1; 0] 0 = Ret (Some c) /\
             c <> [] /\ zsum c = 0) /\
  subset_sum_exh shift_count_masked [0; 7] 0 = Ret (Some [0]).
Proof.
  destruct (subset_sum_exh_never_empty shift_count_masked)
    as (Hsome & Hnone & Hany & Hzero).
  split; [|split; [|split]].
  3: { apply (Hany [1; 0]); [vm_compute; reflexivity | right; left; reflexivity]. }
  - apply (Hsome [3; 34; 4; 12; 5; 2] 9 [4; 5]). reflexivity.
  - apply (Hnone [1; 2] 0).
    + discriminate.
    + vm_compute; reflexivity.
    + intros c Hsub Hsum.
      inversion Hsub as [|c1 x1 l1 H1|c1 x1 l1 H1]; subst;
        (inversion H1 as [|c2 x2 l2 H2|c2 x2 l2 H2]; subst;
         inversion H2; subst; simpl in Hsum; try reflexivity; try lia).
  - apply (Hzero [7]). vm_compute; reflexivity.
Defined.

(** C5: with 63 elements the bound of the mask loop is not [2 ^ 63].  The
    shift [1 << 63] is done in [int] and is past its width, so the bound
    is a sign-extended 32-bit value, whatever the shift yields: with the
    count taken modulo 32 it is [2 ^ 64 - 2 ^ 31], and where such a shift
    clears the register it is 0, no mask is tried and the result is absent
    although the mask 1 already selects a subset that totals the target. *)
Theorem largestInt_63_elements :
  (forall shift_past_width, largestInt shift_past_width 63 <> 2 ^ 63) /\
  largestInt shift_count_masked 63 = 2 ^ 64 - 2 ^ 31 /\
  subset_sum_exh shift_clears (repeat 1 63%nat) 1 = Ret None /\
  hits (repeat 1 63%nat) 1 1.
Proof.
  split; [|split; [|split]].
  - intros spw. unfold largestInt, shl_one.
    change (63 <? 32) with false. cbv iota.
    unfold to_int, to_uint64.
    pose proof (Z.mod_pos_bound (spw 63 + 2 ^ 31) (2 ^ 32) ltac:(lia)) as Hr.
    set (r := (spw 63 + 2 ^ 31) mod 2 ^ 32) in *.
    change (2 ^ 31) with 2147483648 in *.
    change (2 ^ 32) with 4294967296 in *.
    change (2 ^ 64) with 18446744073709551616.
    change (2 ^ 63) with 9223372036854775808.
    destruct (Z_lt_le_dec r 2147483648) as [Hneg|Hpos].
    + rewrite <- (Z.mod_add _ 1) by lia. rewrite Z.mod_small by lia. lia.
    + rewrite Z.mod_small by lia. lia.
  - vm_compute; reflexivity.
  - vm_compute; reflexivity.
  - split; vm_compute; [discriminate | reflexivity].
Qed.

(** The same defect inside the contract: with 32 elements and the shift
    count taken modulo 32 the bound is 1, only the empty mask is tried. *)
Lemma subset_sum_exh_32_elements :
  largestInt shift_count_masked 32 = 1 /\
  subset_sum_exh shift_count_masked (repeat 1 32%nat) 1 = Ret None /\
  hits (repeat 1 32%nat) 1 1.
Proof. repeat split; vm_compute; solve [reflexivity | discriminate]. Qed.

(** * crossing_max_subarray above the sentinel *)

Section Crossing.

Variable input : vec.
Variables low mid high : Z.
Hypothesis Hlow : 0 <= low.
Hypothesis Hmid : low <= mid < high.
Hypothesis Hhigh : high < size input.

(** The leftward scan once some running total has beaten the sentinel:
    [b] is the best start among the positions done, [t] the running
    total. *)
Lemma scan_left_spec (cnt : nat) :
  forall i t b,
    i + 1 - Z.of_nat cnt = low -> i < b <= mid ->
    t = range_sum input (i + 1) (mid + 1) ->
    (forall k, i < k <= mid ->
       range_sum input k (mid + 1) <= range_sum input b (mid + 1)) ->
    (forall k, b < k <= mid ->
       range_sum input k (mid + 1) < range_sum input b (mid + 1)) ->
    exists b',
      scan_left input i cnt t (range_sum input b (mid + 1)) b =
        Ret (range_sum input b' (mid + 1), b') /\
      low <= b' <= mid /\
      (forall k, low <= k <= mid ->
         range_sum input k (mid + 1) <= range_sum input b' (mid + 1)) /\
      (forall k, b' < k <= mid ->
         range_sum input k (mid + 1) < range_sum input b' (mid + 1)).
Proof.
  induction cnt as [|c IH]; intros i t b Hcnt Hb Ht Hbest Hnear.
  - exists b. split; [reflexivity|]. split; [lia|]. split; [|exact Hnear].
    intros k Hk. apply Hbest. lia.
  - cbn [scan_left]. rewrite at_in by lia. cbn [bind]. cbv zeta.
    assert (Hsum : t + nth (Z.to_nat i) input 0 = range_sum input i (mid + 1)).
    { rewrite (range_sum_cons input i (mid + 1)) by lia. lia. }
    rewrite Hsum.
    destruct (Z.gtb_spec (range_sum input i (mid + 1))
                (range_sum input b (mid + 1))) as [Hgt|Hle].
    + apply IH; try lia.
      * f_equal; lia.
      * intros k Hk. destruct (Z.eq_dec k i) as [->|]; [lia|].
        specialize (Hbest k ltac:(lia)). lia.
      * intros k Hk. specialize (Hbest k ltac:(lia)). lia.
    + apply IH; try lia.
      * f_equal; lia.
      * intros k Hk. destruct (Z.eq_dec k i) as [->|]; [lia|].
        apply Hbest. lia.
      * exact Hnear.
Qed.

(** The rightward scan, likewise: [e] is the best last position. *)
Lemma scan_right_spec (cnt : nat) :
  forall j t e,
    j + Z.of_nat cnt = high + 1 -> mid + 1 <= e < j ->
    t = range_sum input (mid + 1) j ->
    (forall k, mid + 1 <= k < j ->
       range_sum input (mid + 1) (k + 1) <= range_sum input (mid + 1) (e + 1)) ->
    (forall k, mid + 1 <= k < e ->
       range_sum input (mid + 1) (k + 1) < range_sum input (mid + 1) (e + 1)) ->
    exists e',
      scan_right input j cnt t (range_sum input (mid + 1) (e + 1)) e =
        Ret (range_sum input (mid + 1) (e' + 1), e') /\
      mid + 1 <= e' <= high /\
      (forall k, mid + 1 <= k <= high ->
         range_sum input (mid + 1) (k + 1) <= range_sum input (mid + 1) (e' + 1)) /\
      (forall k, mid + 1 <= k < e' ->
         range_sum input (mid + 1) (k + 1) < range_sum input (mid + 1) (e' + 1)).
Proof.
  induction cnt as [|c IH]; intros j t e Hcnt He Ht Hbest Hnear.
  - exists e. split; [reflexivity|]. split; [lia|]. split; [|exact Hnear].
    intros k Hk. apply Hbest. lia.
  - cbn [scan_right]. rewrite at_in by lia. cbn [bind]. cbv zeta.
    assert (Hsum : t + nth (Z.to_nat j) input 0 = range_sum input (mid + 1) (j + 1)).
    { rewrite (range_sum_snoc input (mid + 1) j) by lia. lia. }
    rewrite Hsum.
    destruct (Z.gtb_spec (range_sum input (mid + 1) (j + 1))
                (range_sum input (mid + 1) (e + 1))) as [Hgt|Hle].
    + apply IH; try lia.
      * intros k Hk. destruct (Z.eq_dec k j) as [->|]; [lia|].
        specialize (Hbest k ltac:(lia)). lia.
      * intros k Hk. specialize (Hbest k ltac:(lia)). lia.
    + apply IH; try lia.
      * intros k Hk. destruct (Z.eq_dec k j) as [->|]; [lia|].
        apply Hbest. lia.
      * exact Hnear.
Qed.

Hypothesis Hguard_mid : sentinel < nth (Z.to_nat mid) input 0.
Hypothesis Hguard_next : sentinel < nth (Z.to_nat (mid + 1)) input 0.

Lemma crossing_spec :
  exists b e,
    crossing_max_subarray input low mid high =
      Ret (mk_summed_span b (e + 1) (range_sum input b (e + 1))) /\
    low <= b <= mid /\ mid + 1 <= e <= high /\
    range_sum input b (e + 1) =
      range_sum input b (mid + 1) + range_sum input (mid + 1) (e + 1) /\
    (forall k, low <= k <= mid ->
       range_sum input k (mid + 1) <= range_sum input b (mid + 1)) /\
    (forall k, mid + 1 <= k <= high ->
       range_sum input (mid + 1) (k + 1) <= range_sum input (mid + 1) (e + 1)) /\
    (forall k, b < k <= mid ->
       range_sum input k (mid + 1) < range_sum input b (mid + 1)) /\
    (forall k, mid + 1 <= k < e ->
       range_sum input (mid + 1) (k + 1) < range_sum input (mid + 1) (e + 1)).
Proof.
  unfold crossing_max_subarray.
  (* first step of the leftward scan *)
  replace (Z.to_nat (mid - low + 1)) with (S (Z.to_nat (mid - low))) by lia.
  cbn [scan_left]. rewrite at_in by lia. cbn [bind]. cbv zeta.
  rewrite Z.add_0_l, <- (range_sum_one input mid) in * by lia.
  destruct (Z.gtb_spec (range_sum input mid (mid + 1)) sentinel) as [_|]; [|lia].
  destruct (scan_left_spec (Z.to_nat (mid - low)) (mid - 1)
              (range_sum input mid (mid + 1)) mid)
    as (b & -> & Hb & Hbest_l & Hnear_l); try lia.
  { f_equal; lia. }
  { intros k Hk. replace k with mid by lia. lia. }
  cbn [bind snd].
  (* first step of the rightward scan *)
  replace (Z.to_nat (high - mid)) with (S (Z.to_nat (high - mid - 1))) by lia.
  cbn [scan_right]. rewrite at_in by lia. cbn [bind]. cbv zeta.
  rewrite Z.add_0_l, <- (range_sum_one input (mid + 1)) in * by lia.
  destruct (Z.gtb_spec (range_sum input (mid + 1) (mid + 1 + 1)) sentinel) as [_|]; [|lia].
  destruct (scan_right_spec (Z.to_nat (high - mid - 1)) (mid + 1 + 1)
              (range_sum input (mid + 1) (mid + 1 + 1)) (mid + 1))
    as (e & -> & He & Hbest_r & Hnear_r); try lia.
  { intros k Hk. replace k with (mid + 1) by lia. lia. }
  cbn [bind snd].
  exists b, e.
  assert (Hr : is_range (size input) b (e + 1)) by (unfold is_range; lia).
  split.
  { destruct (Z.eqb_spec (e + 1) (size input)) as [<-|_];
      apply summed_span2_ok; assumption. }
  repeat split; try lia; try assumption.
  apply range_sum_split; lia.
Qed.

End Crossing.

(** * Spans that are returned are sound *)

Lemma at_ret (input : vec) (k x : Z) :
  at_ input k = Ret x ->
  0 <= k /\ k < size input /\ x = nth (Z.to_nat k) input 0.
Proof.
  unfold at_.
  destruct (Z.leb_spec 0 k); destruct (Z.ltb_spec k (size input));
    cbn [andb]; intros Hret; try discriminate.
  injection Hret as <-. auto.
Qed.

Lemma sum_loop_ret (input : vec) (cnt : nat) :
  forall k acc x,
    sum_loop input k cnt acc = Ret x ->
    (cnt = 0%nat \/ (0 <= k /\ k + Z.of_nat cnt <= size input)) /\
    x = acc + range_sum input k (k + Z.of_nat cnt).
Proof.
  induction cnt as [|c IH]; intros k acc x Hrun.
  - simpl in Hrun. injection Hrun as <-.
    rewrite range_sum_empty by lia. split; [auto | lia].
  - cbn [sum_loop] in Hrun.
    apply bind_ret in Hrun as (v & Hv & Hrun).
    apply at_ret in Hv as (Hk0 & Hk1 & ->).
    apply IH in Hrun as (Hin & ->).
    split; [right; lia|].
    rewrite (range_sum_cons input k (k + Z.of_nat (S c))) by lia.
    replace (k + 1 + Z.of_nat c) with (k + Z.of_nat (S c)) by lia. lia.
Qed.

(** A span that the two-argument constructor returns lies in the input,
    is non-empty and stores the total of its range. *)
Lemma summed_span2_sound (input : vec) (b e : Z) (s : summed_span) :
  summed_span2 input b e = Ret s ->
  s = mk_summed_span b e (range_sum input b e) /\ span_ok input s.
Proof.
  unfold summed_span2, accumulate, summed_span3. intros Hrun.
  apply bind_ret in Hrun as (x & Hacc & Hrun).
  destruct (Z.ltb_spec b e) as [Hlt|]; [|discriminate].
  destruct (Z.leb_spec b e); [|lia].
  apply sum_loop_ret in Hacc as ([Hz|Hin] & ->); [lia|].
  injection Hrun as <-.
  replace (b + Z.of_nat (Z.to_nat (e - b))) with e in * by lia.
  change (0 + range_sum input b e) with (range_sum input b e).
  split; [reflexivity|]. split; cbn [begin_ end_ sum_]; [|reflexivity].
  unfold is_range; lia.
Qed.

Lemma crossing_sound (input : vec) (low mid high : Z) (s : summed_span) :
  crossing_max_subarray input low mid high = Ret s -> span_ok input s.
Proof.
  unfold crossing_max_subarray. intros Hrun.
  apply bind_ret in Hrun as (lb & _ & Hrun).
  apply bind_ret in Hrun as (re & _ & Hrun).
  cbv zeta in Hrun.
  destruct (_ =? _); apply summed_span2_sound in Hrun; apply Hrun.
Qed.

Lemma combine_cases (onLeft onRight crossing : summed_span) :
  combine onLeft onRight crossing = onLeft \/
  combine onLeft onRight crossing = onRight \/
  combine onLeft onRight crossing = crossing.
Proof.
  unfold combine.
  destruct (_ && _); [auto|]. destruct (_ && _); auto.
Qed.

Lemma recurse_sound (input : vec) (fuel : nat) :
  forall low high s,
    maximum_subarray_recurse fuel input low high = Ret s -> span_ok input s.
Proof.
  induction fuel as [|f IH]; intros low high s Hrun; [discriminate|].
  cbn [maximum_subarray_recurse] in Hrun.
  destruct (low =? high).
  - apply summed_span2_sound in Hrun. apply Hrun.
  - cbv zeta in Hrun.
    apply bind_ret in Hrun as (sl & Hl & Hrun).
    apply bind_ret in Hrun as (sr & Hr & Hrun).
    apply bind_ret in Hrun as (sc & Hc & Hrun).
    injection Hrun as <-.
    destruct (combine_cases sl sr sc) as [->|[->| ->]];
      [eapply IH | eapply IH | eapply crossing_sound]; eassumption.
Qed.

(** Whatever [max_subarray_dbh] returns is a span of the input with the
    total of its range as its sum, so never more than the sum that
    [max_subarray_exh] returns. *)
Lemma max_subarray_dbh_below_exh (fuel : nat) (input : vec) (s t : summed_span) :
  max_subarray_exh input = Ret s ->
  max_subarray_dbh fuel input = Ret t ->
  span_ok input t /\ sum_ t <= sum_ s.
Proof.
  intros Hexh Hdbh.
  assert (Hne : input <> []) by (destruct input; [discriminate | discriminate]).
  assert (Hok : span_ok input t).
  { unfold max_subarray_dbh in Hdbh. destruct input; [discriminate|].
    eapply recurse_sound; eassumption. }
  split; [exact Hok|].
  destruct (max_subarray_exh_run input Hne) as (b & e & Hrun & _ & Hmax & _).
  rewrite Hrun in Hexh. injection Hexh as <-. cbn [sum_].
  destruct Hok as [Hr ->]. apply Hmax, Hr.
Qed.

(** More depth allowance does not change a call that ended. *)
Lemma recurse_fuel_mono (input : vec) (fuel : nat) :
  forall low high r,
    maximum_subarray_recurse fuel input low high = r -> r <> Timeout ->
    forall fuel', (fuel <= fuel')%nat ->
      maximum_subarray_recurse fuel' input low high = r.
Proof.
  induction fuel as [|f IH]; intros low high r Hrun Hr fuel' Hle.
  - simpl in Hrun. congruence.
  - destruct fuel' as [|f']; [lia|].
    cbn [maximum_subarray_recurse] in *.
    destruct (low =? high); [assumption|].
    cbv zeta in *.
    destruct (maximum_subarray_recurse f input low (Z.quot (low + high) 2))
      as [sl| | |] eqn:Hl; cbn [bind] in Hrun; try congruence;
      rewrite (IH _ _ _ Hl ltac:(discriminate) f' ltac:(lia)); cbn [bind];
      try assumption.
    destruct (maximum_subarray_recurse f input (Z.quot (low + high) 2 + 1) high)
      as [sr| | |] eqn:Hr'; cbn [bind] in Hrun; try congruence;
      rewrite (IH _ _ _ Hr' ltac:(discriminate) f' ltac:(lia)); cbn [bind];
      assumption.
Qed.

(** * max_subarray_dbh above the sentinel *)

Lemma above_sentinel_nth (input : vec) (k : Z) :
  above_sentinel input -> 0 <= k < size input ->
  sentinel < nth (Z.to_nat k) input 0.
Proof.
  intros Hall Hk. unfold above_sentinel in Hall. rewrite Forall_forall in Hall.
  apply Hall, nth_In. unfold size in Hk. lia.
Qed.

Lemma fuel_split (low high : Z) (f : nat) :
  0 <= low -> low < high ->
  Z.log2_up (high - low + 1) < Z.of_nat (S f) ->
  Z.log2_up (Z.quot (low + high) 2 - low + 1) < Z.of_nat f /\
  Z.log2_up (high - (Z.quot (low + high) 2 + 1) + 1) < Z.of_nat f.
Proof.
  intros H0 Hlt Hfuel.
  pose proof (avg_bounds low high H0 Hlt) as [Ha Hb].
  assert (Hq : Z.quot (low + high) 2 = (low + high) / 2)
    by (apply Z.quot_div_nonneg; lia).
  pose proof (Z.div_mod (low + high) 2 ltac:(lia)).
  pose proof (Z.mod_pos_bound (low + high) 2 ltac:(lia)).
  pose proof (log2_up_half (high - low + 1) (Z.quot (low + high) 2 - low + 1)).
  pose proof (log2_up_half (high - low + 1)
                (high - (Z.quot (low + high) 2 + 1) + 1)).
  lia.
Qed.

(** With every element above the sentinel [crossing_max_subarray] returns
    a span that holds both [mid] and [mid + 1]; its sum is the best
    leftward running total plus the best rightward running total, and no
    range of [low, high] that holds both has a greater total. *)
Lemma crossing_correct_above_sentinel (input : vec) (low mid high : Z) :
  above_sentinel input ->
  0 <= low -> low <= mid -> mid < high -> high < size input ->
  exists s,
    crossing_max_subarray input low mid high = Ret s /\
    span_ok input s /\
    low <= begin_ s <= mid /\ mid + 1 < end_ s <= high + 1 /\
    sum_ s = range_sum input (begin_ s) (mid + 1)
             + range_sum input (mid + 1) (end_ s) /\
    (forall k, low <= k <= mid ->
       range_sum input k (mid + 1) <= range_sum input (begin_ s) (mid + 1)) /\
    (forall k, mid + 1 < k <= high + 1 ->
       range_sum input (mid + 1) k <= range_sum input (mid + 1) (end_ s)) /\
    (forall i j, low <= i <= mid -> mid + 1 < j <= high + 1 ->
       range_sum input i j <= sum_ s).
Proof.
  intros Hguard H0 Hlm Hmh Hhs.
  destruct (crossing_spec input low mid high)
    as (b & e & Hrun & Hb & He & Hsplit & Hbl & Hbr & _); try lia;
    try (apply above_sentinel_nth; [assumption | lia]).
  eexists; split; [exact Hrun|]. cbn [begin_ end_ sum_].
  assert (Hright : forall k, mid + 1 < k <= high + 1 ->
            range_sum input (mid + 1) k <= range_sum input (mid + 1) (e + 1)).
  { intros k Hk. specialize (Hbr (k - 1) ltac:(lia)).
    replace (k - 1 + 1) with k in Hbr by lia. exact Hbr. }
  repeat split; cbn [begin_ end_ sum_]; try lia; try assumption.
  intros i j Hi Hj.
  rewrite (range_sum_split input i (mid + 1) j) by lia.
  specialize (Hbl i ltac:(lia)). specialize (Hright j ltac:(lia)). lia.
Qed.

(** With every element above the sentinel no assertion fails: the
    recursion returns a span inside [low, high]. *)
Lemma recurse_returns_above_sentinel (input : vec) :
  above_sentinel input ->
  forall (fuel : nat) (low high : Z),
    0 <= low -> low <= high -> high < size input ->
    Z.log2_up (high - low + 1) < Z.of_nat fuel ->
    exists s,
      maximum_subarray_recurse fuel input low high = Ret s /\
      span_ok input s /\ low <= begin_ s /\ end_ s <= high + 1.
Proof.
  intros Hguard.
  induction fuel as [|f IH]; intros low high H0 Hle Hhigh Hfuel.
  - pose proof (Z.log2_up_nonneg (high - low + 1)). lia.
  - assert (Hsound : forall s,
              maximum_subarray_recurse (S f) input low high = Ret s ->
              span_ok input s) by (intros s; apply recurse_sound).
    cbn [maximum_subarray_recurse] in *.
    destruct (Z.eqb_spec low high) as [<-|Hne].
    + rewrite summed_span2_ok in * by (unfold is_range; lia).
      eexists; split; [reflexivity|]. cbn [begin_ end_].
      split; [apply Hsound; reflexivity | lia].
    + cbv zeta in *.
      pose proof (avg_bounds low high H0 ltac:(lia)) as [Ha Hb].
      pose proof (fuel_split low high f H0 ltac:(lia) Hfuel) as [Hfl Hfr].
      set (avg := Z.quot (low + high) 2) in *.
      destruct (IH low avg) as (sl & Hl & _ & Hl1 & Hl2); try lia.
      destruct (IH (avg + 1) high) as (sr & Hr & _ & Hr1 & Hr2); try lia.
      destruct (crossing_correct_above_sentinel input low avg high)
        as (sc & Hc & _ & Hc1 & Hc2 & _); try lia; try assumption.
      rewrite Hl, Hr, Hc in *. cbn [bind] in *.
      eexists; split; [reflexivity|].
      split; [apply Hsound; reflexivity|].
      destruct (combine_cases sl sr sc) as [->|[->| ->]]; lia.
Qed.

(** With every element above the sentinel [max_subarray_dbh] returns: no
    assertion fails, no element outside the vector is read, and the span
    is a non-empty range of the input that stores the total of the
    range. *)
Lemma max_subarray_dbh_returns_above_sentinel (fuel : nat) (input : vec) :
  input <> [] -> above_sentinel input ->
  Z.log2_up (size input) < Z.of_nat fuel ->
  exists s, max_subarray_dbh fuel input = Ret s /\ span_ok input s.
Proof.
  intros Hne Hguard Hfuel.
  pose proof (nonempty_size input Hne) as Hn.
  destruct (recurse_returns_above_sentinel input Hguard fuel 0 (size input - 1))
    as (s & Hrun & Hok & _); try lia.
  { replace (size input - 1 - 0 + 1) with (size input) by lia. assumption. }
  exists s. split; [|exact Hok].
  unfold max_subarray_dbh. destruct input; [congruence | exact Hrun].
Qed.

(** * Where the decrease-by-half algorithm goes wrong *)

Lemma max_subarray_dbh_fuel_mono (fuel extra : nat) (input : vec)
  (r : outcome summed_span) :
  max_subarray_dbh fuel input = r -> r <> Timeout ->
  max_subarray_dbh (fuel + extra) input = r.
Proof.
  unfold max_subarray_dbh. destruct input; [auto|].
  intros Hrun Hr. eapply recurse_fuel_mono; [eassumption | assumption | lia].
Qed.

(** C1: on [5; 0] the two algorithms return spans with different sums.
    [max_subarray_exh] returns [0, 1) with sum 5.  In
    [max_subarray_dbh] the left span [0, 1) and the crossing span [0, 2)
    tie at 5, neither is strictly greater than the other, and the combine
    step falls through to the right span [1, 2) with sum 0, whatever the
    depth allowance. *)
Theorem max_subarray_dbh_loses_tie :
  max_subarray_exh [5; 0] = Ret (mk_summed_span 0 1 5) /\
  forall fuel : nat,
    max_subarray_dbh (2 + fuel) [5; 0] = Ret (mk_summed_span 1 2 0).
Proof.
  split; [reflexivity|].
  intros fuel. apply max_subarray_dbh_fuel_mono; [reflexivity | discriminate].
Qed.

(** C6: on [5; -100000000] with [low = mid = 0] and [high = 1] no
    rightward running total beats the sentinel, [e] keeps its initial 0 and
    the span returned is [0, 1): it does not hold index [mid + 1 = 1], and
    its sum 5 is not the best leftward total 5 plus the best rightward
    total -100000000. *)
Theorem crossing_sentinel_hides_right :
  crossing_max_subarray [5; -100000000] 0 0 1 = Ret (mk_summed_span 0 1 5) /\
  range_sum [5; -100000000] 0 1 = 5 /\
  range_sum [5; -100000000] 1 2 = -100000000.
Proof. repeat split. Qed.

(** C8: on [0; 5; -100000000] the crossing call for [low = 0], [mid = 1],
    [high = 2] finds the left start [b = 1] while [e] keeps its initial 0,
    so it constructs a span with [begin = end = 1] and the assertion
    [begin < end] of the constructor fails; [max_subarray_dbh] stops there,
    whatever the depth allowance. *)
Theorem crossing_breaks_span_assertion :
  summed_span2 [0; 5; -100000000] 1 1 = Abort /\
  crossing_max_subarray [0; 5; -100000000] 0 1 2 = Abort /\
  forall fuel : nat, max_subarray_dbh (3 + fuel) [0; 5; -100000000] = Abort.
Proof.
  split; [reflexivity|]. split; [reflexivity|].
  intros fuel. apply max_subarray_dbh_fuel_mono; [reflexivity | discriminate].
Qed.

(** * The constructors and equality of summed_span *)

Lemma sum_loop_undefined (input : vec) (cnt : nat) :
  forall k acc,
    (0 < cnt)%nat -> k < 0 \/ size input < k + Z.of_nat cnt ->
    sum_loop input k cnt acc = Undefined.
Proof.
  induction cnt as [|c IH]; intros k acc Hpos Hout; [lia|].
  cbn [sum_loop]. unfold at_ at 1.
  destruct (Z.leb_spec 0 k); destruct (Z.ltb_spec k (size input));
    cbn [andb bind]; try reflexivity.
  apply IH; lia.
Qed.

(** The two-argument constructor returns exactly on the non-empty ranges
    of the input, with the total of the range as the sum; on an empty
    range [b = e] its assertion fails; in every other case the summation
    leaves the vector. *)
Theorem summed_span2_outcome (input : vec) (b e : Z) :
  (is_range (size input) b e ->
     summed_span2 input b e = Ret (mk_summed_span b e (range_sum input b e))) /\
  (b = e -> summed_span2 input b e = Abort) /\
  (e < b \/ (b < e /\ (b < 0 \/ size input < e)) ->
     summed_span2 input b e = Undefined).
Proof.
  split; [apply summed_span2_ok|]. split.
  - intros <-. unfold summed_span2, accumulate, summed_span3.
    rewrite Z.leb_refl, Z.sub_diag, Z.ltb_irrefl. reflexivity.
  - intros Hout. unfold summed_span2, accumulate.
    destruct (Z.leb_spec b e) as [Hle|]; [|reflexivity].
    rewrite sum_loop_undefined; [reflexivity | lia | lia].
Qed.

Lemma summed_span2_outcome_witness :
  summed_span2 [4; -1; 2] 1 3 = Ret (mk_summed_span 1 3 (range_sum [4; -1; 2] 1 3)) /\
  summed_span2 [4; -1; 2] 2 2 = Abort /\
  summed_span2 [4; -1; 2] 2 4 = Undefined.
Proof.
  destruct (summed_span2_outcome [4; -1; 2] 1 3) as (Hret & _ & _).
  destruct (summed_span2_outcome [4; -1; 2] 2 2) as (_ & Habort & _).
  destruct (summed_span2_outcome [4; -1; 2] 2 4) as (_ & _ & Hundef).
  split; [|split].
  - apply Hret. unfold is_range, size; simpl; lia.
  - apply Habort. reflexivity.
  - apply Hundef. right. unfold size; simpl; lia.
Defined.

(** [operator==] is an equivalence relation, and two spans of the same
    input that satisfy the invariants of the type and compare equal also
    store the same sum: they are the same value. *)
Theorem span_eqb_equivalence :
  (forall s, span_eqb s s = true) /\
  (forall s t, span_eqb s t = span_eqb t s) /\
  (forall s t u, span_eqb s t = true -> span_eqb t u = true -> span_eqb s u = true) /\
  (forall input s t,
     span_ok input s -> span_ok input t -> span_eqb s t = true -> s = t).
Proof.
  unfold span_eqb. repeat split.
  - intros s. rewrite !Z.eqb_refl. reflexivity.
  - intros s t. rewrite (Z.eqb_sym (begin_ s)), (Z.eqb_sym (end_ s)). reflexivity.
  - intros s t u Hst Htu.
    apply andb_true_iff in Hst as [Hb1 He1]. apply andb_true_iff in Htu as [Hb2 He2].
    apply Z.eqb_eq in Hb1, He1, Hb2, He2.
    rewrite Hb1, Hb2, He1, He2, !Z.eqb_refl. reflexivity.
  - intros input [b e x] [b' e' x'] [_ Hs] [_ Ht] Heq.
    cbn [begin_ end_ sum_] in *.
    apply andb_true_iff in Heq as [Hb He]. apply Z.eqb_eq in Hb, He.
    subst. reflexivity.
Qed.

Lemma span_eqb_equivalence_witness :
  span_eqb (mk_summed_span 0 2 3) (mk_summed_span 0 2 3) = true /\
  mk_summed_span 0 2 3 = mk_summed_span 0 2 3.
Proof.
  destruct span_eqb_equivalence as (Hrefl & _ & _ & Hsame).
  split; [apply Hrefl|].
  apply (Hsame [1; 2]); try reflexivity;
    (split; [unfold is_range, size; simpl; lia | reflexivity]).
Defined.

(** * When max_subarray_dbh finds the maximum *)

(** As long as ties between the left and the crossing span are harmless
    and every element is above the sentinel, the recursion returns a span
    of greatest total inside [low, high]. *)
Lemma recurse_max (input : vec) :
  above_sentinel input -> ties_harmless input ->
  forall (fuel : nat) (low high : Z),
    0 <= low -> low <= high -> high < size input ->
    Z.log2_up (high - low + 1) < Z.of_nat fuel ->
    exists s,
      maximum_subarray_recurse fuel input low high = Ret s /\
      low <= begin_ s /\ begin_ s < end_ s /\ end_ s <= high + 1 /\
      sum_ s = range_sum input (begin_ s) (end_ s) /\
      forall i j, low <= i -> i < j -> j <= high + 1 ->
        range_sum input i j <= sum_ s.
Proof.
  intros Hguard Hties.
  induction fuel as [|f IH]; intros low high H0 Hle Hhigh Hfuel.
  - pose proof (Z.log2_up_nonneg (high - low + 1)). lia.
  - cbn [maximum_subarray_recurse].
    destruct (Z.eqb_spec low high) as [<-|Hne].
    + rewrite summed_span2_ok by (unfold is_range; lia).
      eexists; split; [reflexivity|]. cbn [begin_ end_ sum_].
      repeat split; try lia.
      intros i j Hi Hij Hj.
      replace i with low by lia. replace j with (low + 1) by lia. lia.
    + cbv zeta.
      pose proof (avg_bounds low high H0 ltac:(lia)) as [Ha Hb].
      pose proof (fuel_split low high f H0 ltac:(lia) Hfuel) as [Hfl Hfr].
      set (avg := Z.quot (low + high) 2) in *.
      destruct (IH low avg) as (sl & -> & Hl1 & Hl2 & Hl3 & Hl4 & Hl5); try lia.
      destruct (IH (avg + 1) high) as (sr & -> & Hr1 & Hr2 & Hr3 & Hr4 & Hr5);
        try lia.
      destruct (crossing_spec input low avg high)
        as (b & e & -> & Hb1 & He1 & Hsplit & Hbl & Hbr & _); try lia;
        try (apply above_sentinel_nth; [assumption | lia]).
      cbn [bind].
      set (sc := mk_summed_span b (e + 1) (range_sum input b (e + 1))).
      assert (Hcross : forall i j, low <= i -> i <= avg -> avg + 2 <= j ->
                j <= high + 1 -> range_sum input i j <= sum_ sc).
      { intros i j Hi1 Hi2 Hj1 Hj2. subst sc. cbn [sum_].
        rewrite (range_sum_split input i (avg + 1) j) by lia.
        specialize (Hbl i ltac:(lia)). specialize (Hbr (j - 1) ltac:(lia)).
        replace (j - 1 + 1) with j in Hbr by lia. lia. }
      assert (Hbad : ~ (sum_ sl = sum_ sc /\ sum_ sr < sum_ sl)).
      { intros [Htie Hlow].
        destruct (Hties low avg high (begin_ sl) (end_ sl) b (e + 1))
          as (a' & b' & Ha1 & Ha2 & Ha3 & Hge); try lia.
        - intros a' b' ? ? ?. rewrite <- Hl4. apply Hl5; lia.
        - intros a' b' ? ? ? ?. apply (Hcross a' b'); lia.
        - rewrite <- Hl4. exact Htie.
        - specialize (Hr5 a' b' ltac:(lia) ltac:(lia) ltac:(lia)). lia. }
      eexists; split; [reflexivity|].
      assert (Hres :
        (combine sl sr sc = sl \/ combine sl sr sc = sr \/ combine sl sr sc = sc) /\
        sum_ sl <= sum_ (combine sl sr sc) /\
        sum_ sr <= sum_ (combine sl sr sc) /\
        sum_ sc <= sum_ (combine sl sr sc)).
      { unfold combine.
        destruct (Z.gtb_spec (sum_ sc) (sum_ sl));
          destruct (Z.gtb_spec (sum_ sc) (sum_ sr));
          destruct (Z.gtb_spec (sum_ sl) (sum_ sr));
          destruct (Z.gtb_spec (sum_ sl) (sum_ sc));
          cbn [andb]; (split; [auto|]); lia. }
      destruct Hres as (Hwho & Hge_l & Hge_r & Hge_c).
      assert (Hpos : low <= begin_ (combine sl sr sc) /\
                     begin_ (combine sl sr sc) < end_ (combine sl sr sc) /\
                     end_ (combine sl sr sc) <= high + 1 /\
                     sum_ (combine sl sr sc) =
                       range_sum input (begin_ (combine sl sr sc))
                         (end_ (combine sl sr sc))).
      { destruct Hwho as [->|[->| ->]]; repeat split; try assumption;
          try (subst sc; cbn [begin_ end_ sum_]); try reflexivity; lia. }
      destruct Hpos as (? & ? & ? & ?).
      repeat split; try assumption.
      intros i j Hi Hij Hj.
      destruct (Z_le_gt_dec j (avg + 1)) as [Hjl|Hjr].
      * specialize (Hl5 i j Hi Hij Hjl). lia.
      * destruct (Z_le_gt_dec (avg + 1) i) as [Hil|Hir].
        -- specialize (Hr5 i j Hil Hij Hj). lia.
        -- specialize (Hcross i j ltac:(lia) ltac:(lia) ltac:(lia) ltac:(lia)). lia.
Qed.

Lemma max_subarray_dbh_max (fuel : nat) (input : vec) :
  input <> [] -> above_sentinel input -> ties_harmless input ->
  Z.log2_up (size input) < Z.of_nat fuel ->
  exists b e,
    max_subarray_dbh fuel input = Ret (mk_summed_span b e (range_sum input b e)) /\
    is_range (size input) b e /\
    forall i j, is_range (size input) i j ->
      range_sum input i j <= range_sum input b e.
Proof.
  intros Hne Hguard Hties Hfuel.
  pose proof (nonempty_size input Hne) as Hn.
  destruct (recurse_max input Hguard Hties fuel 0 (size input - 1))
    as ([b e x] & Hrun & H1 & H2 & H3 & H4 & H5); try lia.
  { replace (size input - 1 - 0 + 1) with (size input) by lia. assumption. }
  cbn [begin_ end_ sum_] in *. subst x.
  exists b, e. split.
  - unfold max_subarray_dbh. destruct input; [congruence | exact Hrun].
  - split; [unfold is_range; lia|].
    intros i j (Hi & Hij & Hj). apply H5; lia.
Qed.

Lemma range_sum_ge (input : vec) (c : Z) :
  Forall (fun x => c <= x) input ->
  forall (n : nat) (a : Z),
    0 <= a -> a + Z.of_nat n <= size input ->
    c * Z.of_nat n <= range_sum input a (a + Z.of_nat n).
Proof.
  intros Hall. rewrite Forall_forall in Hall.
  induction n as [|n IH]; intros a Ha Hle.
  - rewrite range_sum_empty by lia. lia.
  - rewrite range_sum_cons by lia.
    specialize (IH (a + 1) ltac:(lia) ltac:(lia)).
    replace (a + Z.of_nat (S n)) with (a + 1 + Z.of_nat n) by lia.
    assert (c <= nth (Z.to_nat a) input 0)
      by (apply Hall, nth_In; unfold size in Hle; lia).
    rewrite Nat2Z.inj_succ, Z.mul_succ_r. lia.
Qed.

Lemma range_sum_le (input : vec) (c : Z) :
  Forall (fun x => x <= c) input ->
  forall (n : nat) (a : Z),
    0 <= a -> a + Z.of_nat n <= size input ->
    range_sum input a (a + Z.of_nat n) <= c * Z.of_nat n.
Proof.
  intros Hall. rewrite Forall_forall in Hall.
  induction n as [|n IH]; intros a Ha Hle.
  - rewrite range_sum_empty by lia. lia.
  - rewrite range_sum_cons by lia.
    specialize (IH (a + 1) ltac:(lia) ltac:(lia)).
    replace (a + Z.of_nat (S n)) with (a + 1 + Z.of_nat n) by lia.
    assert (nth (Z.to_nat a) input 0 <= c)
      by (apply Hall, nth_In; unfold size in Hle; lia).
    rewrite Nat2Z.inj_succ, Z.mul_succ_r. lia.
Qed.

Lemma range_sum_positive (input : vec) (a b : Z) :
  Forall (fun x => 0 < x) input ->
  0 <= a -> a <= b -> b <= size input -> b - a <= range_sum input a b.
Proof.
  intros Hall Ha Hab Hb.
  assert (Hone : Forall (fun x => 1 <= x) input)
    by (eapply Forall_impl; [|exact Hall]; cbv beta; intros; lia).
  pose proof (range_sum_ge input 1 Hone (Z.to_nat (b - a)) a Ha ltac:(lia)) as H.
  replace (a + Z.of_nat (Z.to_nat (b - a))) with b in H by lia. lia.
Qed.

Lemma range_sum_nonpositive (input : vec) (a b : Z) :
  Forall (fun x => x <= 0) input ->
  0 <= a -> a <= b -> b <= size input -> range_sum input a b <= 0.
Proof.
  intros Hall Ha Hab Hb.
  pose proof (range_sum_le input 0 Hall (Z.to_nat (b - a)) a Ha ltac:(lia)) as H.
  replace (a + Z.of_nat (Z.to_nat (b - a))) with b in H by lia. lia.
Qed.

Lemma range_sum_all (input : vec) : range_sum input 0 (size input) = zsum input.
Proof.
  unfold range_sum, size. rewrite Z.sub_0_r, Nat2Z.id. cbn [Z.to_nat skipn].
  rewrite firstn_all. reflexivity.
Qed.

Lemma distinct_ties_harmless (input : vec) :
  distinct_sums input -> ties_harmless input.
Proof.
  intros Hdist low mid high i j i' j' H0 Hhigh Hi Hij Hj Hi' Hi'm Hj' Hj'h _ _ Htie.
  destruct (Hdist i j i' j') as [_ Heq]; try assumption;
    unfold is_range; lia.
Qed.

Lemma positive_ties_harmless (input : vec) :
  Forall (fun x => 0 < x) input -> ties_harmless input.
Proof.
  intros Hpos low mid high i j i' j' H0 Hhigh Hi Hij Hj Hi' Hi'm Hj' Hj'h
    _ Hcross Htie.
  exfalso.
  specialize (Hcross i (mid + 2) ltac:(lia) ltac:(lia) ltac:(lia) ltac:(lia)).
  rewrite (range_sum_split input i j (mid + 2)) in Hcross by lia.
  pose proof (range_sum_positive input j (mid + 2) Hpos ltac:(lia) ltac:(lia)
                ltac:(lia)).
  lia.
Qed.

Lemma nonpositive_ties_harmless (input : vec) :
  Forall (fun x => x <= 0) input -> ties_harmless input.
Proof.
  intros Hneg low mid high i j i' j' H0 Hhigh Hi Hij Hj Hi' Hi'm Hj' Hj'h
    _ _ Htie.
  exists (mid + 1), j'. repeat split; try lia.
  rewrite Htie, (range_sum_split input i' (mid + 1) j') by lia.
  pose proof (range_sum_nonpositive input i' (mid + 1) Hneg ltac:(lia) ltac:(lia)
                ltac:(lia)).
  lia.
Qed.

Lemma positive_above_sentinel (input : vec) :
  Forall (fun x => 0 < x) input -> above_sentinel input.
Proof.
  intros Hpos. eapply Forall_impl; [|exact Hpos].
  cbv beta. unfold sentinel. intros; lia.
Qed.

(** When no two non-empty ranges of the input have the same total and
    every element is above the sentinel, [max_subarray_dbh] returns the
    very span that [max_subarray_exh] returns: same positions, same sum. *)
Theorem max_subarray_dbh_agrees_without_ties (fuel : nat) (input : vec) :
  input <> [] -> above_sentinel input -> distinct_sums input ->
  Z.log2_up (size input) < Z.of_nat fuel ->
  exists s,
    max_subarray_exh input = Ret s /\
    max_subarray_dbh fuel input = Ret s /\
    span_ok input s /\
    forall i j, is_range (size input) i j -> range_sum input i j <= sum_ s.
Proof.
  intros Hne Hguard Hdist Hfuel.
  destruct (max_subarray_exh_run input Hne) as (b & e & Hexh & Hr & Hmax & _).
  destruct (max_subarray_dbh_max fuel input Hne Hguard
              (distinct_ties_harmless input Hdist) Hfuel)
    as (b' & e' & Hdbh & Hr' & Hmax').
  assert (Hsame : range_sum input b' e' = range_sum input b e).
  { specialize (Hmax _ _ Hr'). specialize (Hmax' _ _ Hr). lia. }
  destruct (Hdist b' e' b e Hr' Hr Hsame) as [-> ->].
  eexists. split; [exact Hexh|]. split; [exact Hdbh|].
  split; [split; [exact Hr | reflexivity] | exact Hmax].
Qed.

Lemma distinct_sums_1_2 : distinct_sums [1; 2].
Proof.
  intros i j i' j' (Hi & Hij & Hj) (Hi' & Hij' & Hj') Heq.
  unfold size in *; simpl in Hj, Hj'.
  assert (Hc : (i = 0 /\ j = 1) \/ (i = 0 /\ j = 2) \/ (i = 1 /\ j = 2)) by lia.
  assert (Hc' : (i' = 0 /\ j' = 1) \/ (i' = 0 /\ j' = 2) \/ (i' = 1 /\ j' = 2)) by lia.
  destruct Hc as [[-> ->]|[[-> ->]|[-> ->]]];
    destruct Hc' as [[-> ->]|[[-> ->]|[-> ->]]];
    vm_compute in Heq; try discriminate; split; reflexivity.
Defined.

Lemma above_sentinel_1_2 : above_sentinel [1; 2].
Proof. repeat constructor. Defined.

Lemma max_subarray_dbh_agrees_without_ties_witness :
  exists s,
    max_subarray_exh [1; 2] = Ret s /\
    max_subarray_dbh 2 [1; 2] = Ret s /\
    span_ok [1; 2] s /\
    forall i j, is_range (size [1; 2]) i j -> range_sum [1; 2] i j <= sum_ s.
Proof.
  apply (max_subarray_dbh_agrees_without_ties 2 [1; 2]).
  - discriminate.
  - exact above_sentinel_1_2.
  - exact distinct_sums_1_2.
  - vm_compute; reflexivity.
Defined.

(** On a vector of positive elements both algorithms return the span of
    the whole vector, with the total of all elements as its sum. *)
Theorem max_subarray_positive_whole (fuel : nat) (input : vec) :
  input <> [] -> Forall (fun x => 0 < x) input ->
  Z.log2_up (size input) < Z.of_nat fuel ->
  max_subarray_exh input = Ret (mk_summed_span 0 (size input) (zsum input)) /\
  max_subarray_dbh fuel input = Ret (mk_summed_span 0 (size input) (zsum input)).
Proof.
  intros Hne Hpos Hfuel.
  pose proof (nonempty_size input Hne) as Hn.
  assert (Hwhole : forall b e,
            is_range (size input) b e ->
            (forall i j, is_range (size input) i j ->
               range_sum input i j <= range_sum input b e) ->
            b = 0 /\ e = size input).
  { intros b e (Hb & Hbe & He) Hmax.
    specialize (Hmax 0 (size input) ltac:(unfold is_range; lia)).
    rewrite (range_sum_split input 0 b (size input)) in Hmax by lia.
    rewrite (range_sum_split input b e (size input)) in Hmax by lia.
    pose proof (range_sum_positive input 0 b Hpos ltac:(lia) ltac:(lia) ltac:(lia)).
    pose proof (range_sum_positive input e (size input) Hpos ltac:(lia) ltac:(lia)
                  ltac:(lia)).
    lia. }
  split.
  - destruct (max_subarray_exh_run input Hne) as (b & e & Hexh & Hr & Hmax & _).
    destruct (Hwhole b e Hr Hmax) as [-> ->].
    rewrite Hexh, range_sum_all. reflexivity.
  - destruct (max_subarray_dbh_max fuel input Hne (positive_above_sentinel input Hpos)
                (positive_ties_harmless input Hpos) Hfuel)
      as (b & e & Hdbh & Hr & Hmax).
    destruct (Hwhole b e Hr Hmax) as [-> ->].
    rewrite Hdbh, range_sum_all. reflexivity.
Qed.

Lemma max_subarray_positive_whole_witness :
  max_subarray_exh [3; 1; 2] = Ret (mk_summed_span 0 (size [3; 1; 2]) (zsum [3; 1; 2])) /\
  max_subarray_dbh 3 [3; 1; 2] = Ret (mk_summed_span 0 (size [3; 1; 2]) (zsum [3; 1; 2])).
Proof.
  apply (max_subarray_positive_whole 3 [3; 1; 2]).
  - discriminate.
  - repeat constructor.
  - vm_compute; reflexivity.
Defined.

(** On a vector without positive elements, all above the sentinel, the two
    algorithms return spans with the same sum, the greatest total of a
    non-empty range. *)
Theorem max_subarray_nonpositive_agree (fuel : nat) (input : vec) :
  input <> [] -> Forall (fun x => x <= 0) input -> above_sentinel input ->
  Z.log2_up (size input) < Z.of_nat fuel ->
  exists s t,
    max_subarray_exh input = Ret s /\
    max_subarray_dbh fuel input = Ret t /\
    span_ok input t /\
    sum_ t = sum_ s /\
    forall i j, is_range (size input) i j -> range_sum input i j <= sum_ t.
Proof.
  intros Hne Hneg Hguard Hfuel.
  destruct (max_subarray_exh_run input Hne) as (b & e & Hexh & Hr & Hmax & _).
  destruct (max_subarray_dbh_max fuel input Hne Hguard
              (nonpositive_ties_harmless input Hneg) Hfuel)
    as (b' & e' & Hdbh & Hr' & Hmax').
  eexists; eexists. split; [exact Hexh|]. split; [exact Hdbh|].
  cbn [sum_ begin_ end_].
  split; [split; [exact Hr' | reflexivity]|].
  split; [|exact Hmax'].
  specialize (Hmax _ _ Hr'). specialize (Hmax' _ _ Hr). lia.
Qed.

Lemma max_subarray_nonpositive_agree_witness :
  exists s t,
    max_subarray_exh [-3; -1; -2] = Ret s /\
    max_subarray_dbh 3 [-3; -1; -2] = Ret t /\
    span_ok [-3; -1; -2] t /\
    sum_ t = sum_ s /\
    forall i j, is_range (size [-3; -1; -2]) i j ->
      range_sum [-3; -1; -2] i j <= sum_ t.
Proof.
  apply (max_subarray_nonpositive_agree 3 [-3; -1; -2]).
  - discriminate.
  - repeat constructor; lia.
  - repeat constructor.
  - vm_compute; reflexivity.
Defined.

Lemma max_subarray_dbh_below_exh_witness :
  span_ok [5; 0] (mk_summed_span 1 2 0) /\ 0 <= 5.
Proof.
  apply (max_subarray_dbh_below_exh 2 [5; 0] (mk_summed_span 0 1 5)
           (mk_summed_span 1 2 0)); reflexivity.
Defined.

Lemma max_subarray_dbh_returns_above_sentinel_witness :
  exists s, max_subarray_dbh 2 [5; 0] = Ret s /\ span_ok [5; 0] s.
Proof.
  apply (max_subarray_dbh_returns_above_sentinel 2 [5; 0]).
  - discriminate.
  - repeat constructor.
  - vm_compute; reflexivity.
Defined.

(** * crossing_max_subarray: the best crossing range, and the shortest *)

(** With every element above the sentinel, [crossing_max_subarray] on a
    split [low <= mid < high] inside the vector returns a span that holds
    both [mid] and [mid + 1], whose sum is the total of its part up to
    [mid] plus the total of its part from [mid + 1]; no range of
    [low, high] across the split has a greater total, and any such range
    with the same total contains the returned one: ties are won by the
    shortest extension on either side. *)
Theorem crossing_best_and_shortest (input : vec) (low mid high : Z) :
  above_sentinel input ->
  0 <= low -> low <= mid -> mid < high -> high < size input ->
  exists s,
    crossing_max_subarray input low mid high = Ret s /\
    span_ok input s /\
    low <= begin_ s <= mid /\ mid + 1 < end_ s <= high + 1 /\
    sum_ s = range_sum input (begin_ s) (mid + 1)
             + range_sum input (mid + 1) (end_ s) /\
    (forall i j, low <= i <= mid -> mid + 1 < j <= high + 1 ->
       range_sum input i j <= sum_ s) /\
    (forall i j, low <= i <= mid -> mid + 1 < j <= high + 1 ->
       range_sum input i j = sum_ s -> i <= begin_ s /\ end_ s <= j).
Proof.
  intros Hguard H0 Hlm Hmh Hhs.
  destruct (crossing_spec input low mid high)
    as (b & e & Hrun & Hb & He & Hsplit & Hbl & Hbr & Hnl & Hnr); try lia;
    try (apply above_sentinel_nth; [assumption | lia]).
  eexists; split; [exact Hrun|]. cbn [begin_ end_ sum_].
  assert (Hparts : forall i j, low <= i <= mid -> mid + 1 < j <= high + 1 ->
            range_sum input i j =
              range_sum input i (mid + 1) + range_sum input (mid + 1) j /\
            range_sum input i (mid + 1) <= range_sum input b (mid + 1) /\
            range_sum input (mid + 1) j <= range_sum input (mid + 1) (e + 1)).
  { intros i j Hi Hj. split; [apply range_sum_split; lia|].
    split; [apply Hbl; lia|].
    specialize (Hbr (j - 1) ltac:(lia)).
    replace (j - 1 + 1) with j in Hbr by lia. exact Hbr. }
  split; [split; [unfold is_range; cbn [begin_ end_]; lia | reflexivity]|].
  split; [lia|]. split; [lia|]. split; [exact Hsplit|]. split.
  - intros i j Hi Hj. destruct (Hparts i j Hi Hj) as (-> & ? & ?). lia.
  - intros i j Hi Hj Htie. destruct (Hparts i j Hi Hj) as (Heq & Hl & Hr).
    split.
    + destruct (Z_le_gt_dec i b) as [|Hgt]; [assumption | exfalso].
      specialize (Hnl i ltac:(lia)). lia.
    + destruct (Z_le_gt_dec (e + 1) j) as [|Hgt]; [assumption | exfalso].
      specialize (Hnr (j - 1) ltac:(lia)).
      replace (j - 1 + 1) with j in Hnr by lia. lia.
Qed.

Lemma crossing_best_and_shortest_witness :
  exists s,
    crossing_max_subarray [2; 0; 3; 0] 0 1 3 = Ret s /\
    span_ok [2; 0; 3; 0] s /\
    0 <= begin_ s <= 1 /\ 1 + 1 < end_ s <= 3 + 1 /\
    sum_ s = range_sum [2; 0; 3; 0] (begin_ s) (1 + 1)
             + range_sum [2; 0; 3; 0] (1 + 1) (end_ s) /\
    (forall i j, 0 <= i <= 1 -> 1 + 1 < j <= 3 + 1 ->
       range_sum [2; 0; 3; 0] i j <= sum_ s) /\
    (forall i j, 0 <= i <= 1 -> 1 + 1 < j <= 3 + 1 ->
       range_sum [2; 0; 3; 0] i j = sum_ s -> i <= begin_ s /\ end_ s <= j).
Proof.
  apply (crossing_best_and_shortest [2; 0; 3; 0] 0 1 3).
  - repeat constructor.
  - lia.
  - lia.
  - lia.
  - vm_compute; reflexivity.
Defined.

(** * maximum_subarray_recurse outside its contract *)

(** Called with non-negative indices and [high < low], the recursion never
    reaches its base case: the split point is again below [low], so the
    left call is on an inverted range too, at every depth. *)
Theorem recurse_inverted_range_diverges (input : vec) (low high : Z) :
  0 <= high -> high < low ->
  forall fuel : nat, maximum_subarray_recurse fuel input low high = Timeout.
Proof.
  intros H0 Hinv fuel. revert high H0 Hinv.
  induction fuel as [|f IH]; intros high H0 Hinv; [reflexivity|].
  cbn [maximum_subarray_recurse].
  destruct (Z.eqb_spec low high); [lia|].
  cbv zeta.
  assert (Hq : Z.quot (low + high) 2 = (low + high) / 2)
    by (apply Z.quot_div_nonneg; lia).
  rewrite IH; [reflexivity | |].
  - rewrite Hq. apply Z.div_pos; lia.
  - rewrite Hq. apply Z.div_lt_upper_bound; lia.
Qed.

Lemma recurse_inverted_range_diverges_witness :
  maximum_subarray_recurse 40 [1; 2] 1 0 = Timeout.
Proof. apply (recurse_inverted_range_diverges [1; 2] 1 0); lia. Defined.

(** * max_subarray_exh: the empty vector, and pieces of a vector *)

(** [max_subarray_exh] stops at its assertion exactly on the empty vector;
    on every other vector it returns a span, of at least one and at most
    [size] elements.  [max_subarray_dbh] stops at its assertion on the
    empty vector too. *)
Theorem max_subarray_empty_input :
  (forall input, max_subarray_exh input = Abort <-> input = []) /\
  (forall input, input <> [] ->
     exists s, max_subarray_exh input = Ret s /\
               1 <= span_size s <= size input) /\
  (forall fuel, max_subarray_dbh fuel [] = Abort).
Proof.
  split; [|split].
  - intros input. split; [|intros ->; reflexivity].
    intros Habort. destruct input as [|x r]; [reflexivity|].
    destruct (max_subarray_exh_run (x :: r) ltac:(discriminate))
      as (b & e & Hrun & _). congruence.
  - intros input Hne.
    destruct (max_subarray_exh_run input Hne) as (b & e & Hrun & (Hb & Hbe & He) & _).
    eexists; split; [exact Hrun|]. unfold span_size; cbn [begin_ end_]. lia.
  - reflexivity.
Qed.

Lemma max_subarray_empty_input_witness :
  exists s, max_subarray_exh [7] = Ret s /\ 1 <= span_size s <= size [7].
Proof.
  destruct max_subarray_empty_input as (_ & Hret & _).
  apply (Hret [7]). discriminate.
Defined.

Lemma range_sum_middle (pre mid post : vec) (n : nat) :
  forall a, 0 <= a -> a + Z.of_nat n <= size mid ->
    range_sum (pre ++ mid ++ post) (size pre + a) (size pre + a + Z.of_nat n) =
    range_sum mid a (a + Z.of_nat n).
Proof.
  induction n as [|n IH]; intros a Ha Hle.
  - rewrite !range_sum_empty by lia. reflexivity.
  - rewrite (range_sum_cons (pre ++ mid ++ post)) by (unfold size; lia).
    rewrite (range_sum_cons mid) by lia.
    specialize (IH (a + 1) ltac:(lia) ltac:(lia)).
    replace (size pre + (a + 1)) with (size pre + a + 1) in IH by lia.
    replace (size pre + a + 1 + Z.of_nat n) with (size pre + a + Z.of_nat (S n))
      in IH by lia.
    replace (a + 1 + Z.of_nat n) with (a + Z.of_nat (S n)) in IH by lia.
    rewrite IH. f_equal.
    replace (Z.to_nat (size pre + a)) with (length pre + Z.to_nat a)%nat
      by (unfold size; lia).
    rewrite app_nth2_plus, app_nth1 by (unfold size in Hle; lia).
    reflexivity.
Qed.

(** The sum that [max_subarray_exh] returns for a contiguous piece of a
    vector is never more than the sum it returns for the whole vector. *)
Theorem max_subarray_exh_piece (pre mid post : vec) :
  mid <> [] ->
  exists s s',
    max_subarray_exh mid = Ret s /\
    max_subarray_exh (pre ++ mid ++ post) = Ret s' /\
    sum_ s <= sum_ s'.
Proof.
  intros Hne.
  assert (Hne' : pre ++ mid ++ post <> []).
  { intros Hnil. apply app_eq_nil in Hnil as [_ Hnil].
    apply app_eq_nil in Hnil as [Hnil _]. contradiction. }
  destruct (max_subarray_exh_run mid Hne) as (b & e & Hrun & (Hb & Hbe & He) & _).
  destruct (max_subarray_exh_run _ Hne') as (b' & e' & Hrun' & _ & Hmax & _).
  eexists; eexists. split; [exact Hrun|]. split; [exact Hrun'|]. cbn [sum_].
  pose proof (range_sum_middle pre mid post (Z.to_nat (e - b)) b Hb ltac:(lia)) as Hmid.
  replace (b + Z.of_nat (Z.to_nat (e - b))) with e in Hmid by lia.
  replace (size pre + b + Z.of_nat (Z.to_nat (e - b))) with (size pre + e) in Hmid by lia.
  rewrite <- Hmid. apply Hmax.
  unfold is_range, size in *. rewrite !length_app. lia.
Qed.

Lemma max_subarray_exh_piece_witness :
  exists s s',
    max_subarray_exh [4; -1] = Ret s /\
    max_subarray_exh ([-3] ++ [4; -1] ++ [2]) = Ret s' /\
    sum_ s <= sum_ s'.
Proof. apply (max_subarray_exh_piece [-3] [4; -1] [2]). discriminate. Defined.

(** * subset_sum_exh: outcomes, absence and the shortest prefix *)

(** [subset_sum_exh] stops at an assertion exactly when the input is empty
    or has 64 elements or more; in every other case it returns, present or
    absent: the search never reads outside the vector, whatever the shift
    that computes the bound yields. *)
Theorem subset_sum_exh_outcome (shift_past_width : Z -> Z) (input : vec)
  (target : Z) :
  (subset_sum_exh shift_past_width input target = Abort <->
   input = [] \/ 64 <= size input) /\
  (input <> [] -> size input < 64 ->
   exists r, subset_sum_exh shift_past_width input target = Ret r).
Proof.
  assert (Hret : input <> [] -> size input < 64 ->
            exists r, subset_sum_exh shift_past_width input target = Ret r).
  { intros Hne Hsize.
    destruct (subset_sum_exh_spec shift_past_width input target Hne Hsize)
      as [(m & _ & _ & Hrun & _)|[Hrun _]]; eauto. }
  split; [|exact Hret]. split.
  - intros Habort.
    destruct input as [|x r]; [left; reflexivity|].
    destruct (Z_lt_le_dec (size (x :: r)) 64) as [Hlt|]; [|right; assumption].
    destruct (Hret ltac:(discriminate) Hlt) as (res & Hrun). congruence.
  - intros [->|Hbig]; [reflexivity|].
    unfold subset_sum_exh. destruct input; [reflexivity|].
    destruct (Z.ltb_spec (size (z :: input)) 64); [lia | reflexivity].
Qed.

Lemma subset_sum_exh_outcome_witness :
  exists r, subset_sum_exh shift_clears [1; 2] 3 = Ret r.
Proof.
  destruct (subset_sum_exh_outcome shift_clears [1; 2] 3) as (_ & Hret).
  apply Hret; [discriminate | vm_compute; reflexivity].
Defined.

(** Below 32 elements the result is absent exactly when no non-empty
    selection of input elements, in input order, totals the target. *)
Theorem subset_sum_exh_absent_iff (shift_past_width : Z -> Z) (input : vec)
  (target : Z) :
  input <> [] -> size input < 32 ->
  (subset_sum_exh shift_past_width input target = Ret None <->
   forall c, subseq c input -> zsum c = target -> c = []).
Proof.
  intros Hne Hsize. split.
  - intros Hnone c Hsub Hsum.
    destruct c as [|x c]; [reflexivity | exfalso].
    destruct (subset_sum_exh_complete shift_past_width input target (x :: c)
                Hne Hsize Hsub ltac:(discriminate) Hsum) as (c' & Hrun).
    congruence.
  - intros Honly.
    destruct (subset_sum_exh_spec shift_past_width input target Hne ltac:(lia))
      as [(m & _ & _ & _ & [Hsel Hsum] & _)|[Hrun _]]; [exfalso|assumption].
    apply Hsel, Honly; [apply select_from_subseq | assumption].
Qed.

Lemma subset_sum_exh_absent_iff_witness :
  subset_sum_exh shift_count_masked [3; 34; 4] 100 = Ret None <->
  forall c, subseq c [3; 34; 4] -> zsum c = 100 -> c = [].
Proof.
  apply (subset_sum_exh_absent_iff shift_count_masked [3; 34; 4] 100).
  - discriminate.
  - vm_compute; reflexivity.
Defined.

(** A present result is drawn from the shortest prefix of the input that
    holds a solution: when some non-empty selection of the first [k]
    elements totals the target, the selection returned is a selection of
    the first [k] elements as well. *)
Theorem subset_sum_exh_shortest_prefix (shift_past_width : Z -> Z)
  (input : vec) (target : Z) (c c' : list Z) (k : nat) :
  subset_sum_exh shift_past_width input target = Ret (Some c) ->
  (k <= length input)%nat ->
  subseq c' (firstn k input) -> c' <> [] -> zsum c' = target ->
  subseq c (firstn k input).
Proof.
  intros Hrun Hk Hsub Hne Hsum.
  destruct (subset_sum_exh_present _ _ _ _ Hrun) as (m & Hm & -> & _ & Hleast).
  destruct (subseq_select _ _ Hsub) as (m' & Hm' & Hsel).
  rewrite length_firstn, Nat.min_l in Hm' by assumption.
  assert (Hhit : hits input target m').
  { unfold hits. rewrite <- (Z.mod_small m' (2 ^ Z.of_nat k)) by lia.
    rewrite <- select_prefix, Hsel by assumption. split; assumption. }
  assert (Hle : m <= m').
  { destruct (Z_le_gt_dec m m') as [|Hgt]; [assumption | exfalso].
    apply (Hleast m'); [lia | exact Hhit]. }
  rewrite <- (Z.mod_small m (2 ^ Z.of_nat k)) by lia.
  rewrite <- select_prefix by assumption.
  apply select_from_subseq.
Qed.

Lemma subset_sum_exh_shortest_prefix_witness :
  subseq [3; 4; 2] (firstn 4 [3; 34; 4; 2; 5; 9]).
Proof.
  apply (subset_sum_exh_shortest_prefix shift_count_masked
           [3; 34; 4; 2; 5; 9] 9 [3; 4; 2] [3; 4; 2] 4).
  - vm_compute; reflexivity.
  - simpl; lia.
  - simpl. apply subseq_take, subseq_skip, subseq_take, subseq_take, subseq_nil.
  - discriminate.
  - reflexivity.
Defined.

(** * crossing_max_subarray when the sentinel is not beaten *)

Lemma scan_right_below (input : vec) (mid : Z) (cnt : nat) :
  forall j t,
    0 <= mid + 1 -> mid + 1 <= j -> j + Z.of_nat cnt <= size input ->
    t = range_sum input (mid + 1) j ->
    (forall k, j <= k < j + Z.of_nat cnt ->
       range_sum input (mid + 1) (k + 1) <= sentinel) ->
    scan_right input j cnt t sentinel 0 = Ret (sentinel, 0).
Proof.
  induction cnt as [|c IH]; intros j t Hmid Hj Hle Ht Hlow; [reflexivity|].
  cbn [scan_right]. rewrite at_in by lia. cbn [bind]. cbv zeta.
  assert (Hsum : t + nth (Z.to_nat j) input 0 = range_sum input (mid + 1) (j + 1)).
  { rewrite (range_sum_snoc input (mid + 1) j) by lia. lia. }
  rewrite Hsum.
  pose proof (Hlow j ltac:(lia)).
  destruct (Z.gtb_spec (range_sum input (mid + 1) (j + 1)) sentinel); [lia|].
  apply IH; try lia. intros k Hk. apply Hlow. lia.
Qed.

Lemma scan_left_below (input : vec) (mid : Z) (cnt : nat) :
  forall i t,
    0 <= i + 1 - Z.of_nat cnt -> i <= mid -> mid < size input ->
    t = range_sum input (i + 1) (mid + 1) ->
    (forall k, i - Z.of_nat cnt < k <= i ->
       range_sum input k (mid + 1) <= sentinel) ->
    scan_left input i cnt t sentinel 0 = Ret (sentinel, 0).
Proof.
  induction cnt as [|c IH]; intros i t Hcnt Hi Hmid Ht Hlow; [reflexivity|].
  cbn [scan_left]. rewrite at_in by lia. cbn [bind]. cbv zeta.
  assert (Hsum : t + nth (Z.to_nat i) input 0 = range_sum input i (mid + 1)).
  { rewrite (range_sum_cons input i (mid + 1)) by lia. lia. }
  rewrite Hsum.
  pose proof (Hlow i ltac:(lia)).
  destruct (Z.gtb_spec (range_sum input i (mid + 1)) sentinel); [lia|].
  apply IH; try lia.
  - f_equal; lia.
  - intros k Hk. apply Hlow. lia.
Qed.

(** On a split [low <= mid < high] inside the vector: when no rightward
    running total from [mid + 1] is above the sentinel, [e] keeps its
    initial 0 and any span returned ends at position 1, so it holds no
    element to the right of [mid]; when no leftward running total from
    [mid] is above the sentinel, [b] keeps its initial 0 and any span
    returned begins at position 0, whatever [low] is. *)
Theorem crossing_below_sentinel (input : vec) (low mid high : Z) :
  0 <= low -> low <= mid -> mid < high -> high < size input ->
  ((forall k, mid < k <= high ->
      range_sum input (mid + 1) (k + 1) <= sentinel) ->
   forall s, crossing_max_subarray input low mid high = Ret s -> end_ s = 1) /\
  ((forall k, low <= k <= mid ->
      range_sum input k (mid + 1) <= sentinel) ->
   forall s, crossing_max_subarray input low mid high = Ret s -> begin_ s = 0).
Proof.
  intros H0 Hlm Hmh Hhs. split; intros Hlow s Hrun;
    unfold crossing_max_subarray in Hrun;
    apply bind_ret in Hrun as (lb & Hleft & Hrun);
    apply bind_ret in Hrun as (re & Hright & Hrun);
    cbv zeta in Hrun.
  - rewrite (scan_right_below input mid) in Hright; try lia.
    + injection Hright as <-. cbn [snd] in Hrun.
      destruct (Z.eqb_spec (0 + 1) (size input)) as [Heq|_];
        apply summed_span2_sound in Hrun as [-> _]; cbn [end_]; lia.
    + rewrite range_sum_empty by lia. reflexivity.
    + intros k Hk. apply Hlow. lia.
  - rewrite (scan_left_below input mid) in Hleft; try lia.
    + injection Hleft as <-. cbn [snd] in Hrun.
      destruct (_ =? _); apply summed_span2_sound in Hrun as [-> _];
        reflexivity.
    + rewrite range_sum_empty by lia. reflexivity.
    + intros k Hk. apply Hlow. lia.
Qed.

Lemma crossing_below_sentinel_witness :
  end_ (mk_summed_span 0 1 5) = 1.
Proof.
  destruct (crossing_below_sentinel [5; -100000000] 0 0 1) as [Hright _];
    try lia; [vm_compute; reflexivity|].
  apply Hright; [|reflexivity].
  intros k Hk. replace k with 1 by lia. vm_compute. discriminate.
Defined.
